(** * BEKK multivariate GARCH: a shallow embedding of the Python sources

    The development embeds [python/BEKK.py] (parameter codec, covariance
    recursion, likelihood, stationary covariance, simulation) and
    [bekk/generate_data.py] ([simulate_bekk]).

    - numpy arrays are lists: a 1-D array is [list F], a 2-D array a list
      of rows, the 3-D buffer [H] a list of matrices updated by index;
    - the scalar type [F] is abstract ([Scalar]): the code is the same
      whether the entries are IEEE doubles ([float_scalar], executable) or
      exact reals ([R_scalar]);
    - LAPACK ([det], [inv], [cholesky]), libm ([log]) and the random
      generators are interfaces ([Lapack], [Libm], [Random]);
    - Python exceptions are the [Raise] outcomes of the [res] monad; the
      only [while] loop ([stationary_H]) runs on fuel. *)

From Stdlib Require Import ZArith List Bool String Reals Lra Lia Floats.
From stdpp Require Import base list.

Set Default Proof Using "Type".

(** ** Outcomes of a Python call *)

Inductive exn : Set :=
| ValueError      (* numpy shape / broadcast errors, unknown distribution *)
| IndexError      (* index out of bounds *)
| LinAlgError     (* singular matrix, Cholesky of a non-PD matrix *)
| UnboundLocalError.

Inductive res (A : Type) : Type :=
| Ok (a : A)
| Raise (e : exn)
| OutOfFuel.
Arguments Ok {A} a.
Arguments Raise {A} e.
Arguments OutOfFuel {A}.

Definition res_bind {A B} (f : A → res B) (m : res A) : res B :=
  match m with
  | Ok a => f a
  | Raise e => Raise e
  | OutOfFuel => OutOfFuel
  end.

#[global] Instance res_mbind : MBind res := @res_bind.
#[global] Instance res_mret : MRet res := @Ok.

(** [l[i]] on a Python sequence, for [0 ≤ i]. *)
Definition getitem {A} (l : list A) (i : nat) : res A :=
  match l !! i with
  | Some a => Ok a
  | None => Raise IndexError
  end.

(** [for t in l: s = body(t, s)], stopping at the first exception. *)
Fixpoint for_each {S} (l : list nat) (body : nat → S → res S) (s : S) : res S :=
  match l with
  | [] => Ok s
  | t :: l' => s' ← body t s; for_each l' body s'
  end.

(** ** Scalars *)

(** The operations the sources apply to array entries, and the float
    literals they contain. *)
Class Scalar (F : Type) : Type := {
  fzero : F;
  fone : F;
  fadd : F → F → F;
  fsub : F → F → F;
  fmul : F → F → F;
  fdiv : F → F → F;
  fabs : F → F;
  fsqrt : F → F;
  feqb : F → F → bool;
  fltb : F → F → bool;
  fleb : F → F → bool;
  fisinf : F → bool;
  of_nat : nat → F;          (* int to float, as in [u.T.dot(u) / T] *)
  uninit : F;                (* content of a cell of [np.empty] *)
  lit_1e10 : F;
  lit_1e20 : F;
  lit_1e3 : F;
  lit_1em3 : F;
  lit_rtol : F;              (* 1e-05, default [rtol] of [np.isclose] *)
  lit_atol : F;              (* 1e-08, default [atol] of [np.isclose] *)
}.

(** LAPACK-backed functions of numpy/scipy. *)
Class Lapack (F : Type) : Type := {
  linalg_det : list (list F) → F;
  linalg_inv : list (list F) → res (list (list F));
  linalg_cholesky : list (list F) → res (list (list F)); (* lower factor *)
}.

Class Libm (F : Type) : Type := { np_log : F → F }.

(** The random generators: each call consumes generator state. The
    result of a draw is a 2-D array, one row per observation. *)
Class Random (F : Type) : Type := {
  rng : Type;
  multivariate_normal : nat → nat → rng → list (list F) * rng;
  standard_t : nat → nat → nat → rng → list (list F) * rng;
  skewstudent_rvs : nat → F → nat → nat → rng → list (list F) * rng;
}.

(** ** numpy arrays as lists *)

Section numpy.
Context {F : Type} `{!Scalar F}.

#[global] Instance scalar_inhabited : Inhabited F := populate fzero.

Definition zeros1 (n : nat) : list F := replicate n fzero.
Definition zeros (r c : nat) : list (list F) := replicate r (zeros1 c).
Definition eye (n : nat) : list (list F) :=
  fmap (λ i, fmap (λ j, if i =? j then fone else fzero) (seq 0 n)) (seq 0 n).
Definition np_empty (T r c : nat) : list (list (list F)) :=
  replicate T (replicate r (replicate c uninit)).

Definition nrows (M : list (list F)) : nat := length M.
Definition ncols (M : list (list F)) : nat := length (default [] (head M)).

Definition fsum (l : list F) : F := foldr fadd fzero l.
Definition vdot (x y : list F) : F := fsum (zip_with fmul x y).
Definition column (j : nat) (M : list (list F)) : list F :=
  fmap (λ r, r !!! j) M.

(** [M.T] *)
Definition transpose (M : list (list F)) : list (list F) :=
  fmap (λ j, column j M) (seq 0 (ncols M)).

(** [M.dot(N)] for 2-D operands of matching shapes. *)
Definition dot (M N : list (list F)) : list (list F) :=
  fmap (λ r, fmap (λ j, vdot r (column j N)) (seq 0 (ncols N))) M.

(** [x.dot(N)] for a 1-D [x]. *)
Definition vec_dot (x : list F) (N : list (list F)) : list F :=
  fmap (λ j, vdot x (column j N)) (seq 0 (ncols N)).

Definition madd (M N : list (list F)) : list (list F) :=
  zip_with (zip_with fadd) M N.
Definition msub (M N : list (list F)) : list (list F) :=
  zip_with (zip_with fsub) M N.
Definition mdiv (M : list (list F)) (c : F) : list (list F) :=
  fmap (λ r : list F, fmap (λ x, fdiv x c) r) M.

(** [x[np.newaxis].T * y]: the (n,1) column times the (n,) row. *)
Definition outer (x y : list F) : list (list F) :=
  fmap (λ xi, fmap (λ yj, fmul xi yj) y) x.

(** [np.linalg.norm(M)]: Frobenius norm. *)
Definition norm (M : list (list F)) : F :=
  fsqrt (fsum (fmap (λ x, fmul x x) (mjoin M))).

(** [np.isclose(a, b)] with the default tolerances. *)
Definition isclose (a b : F) : bool :=
  fleb (fabs (fsub a b)) (fadd lit_atol (fmul lit_rtol (fabs b))).

(** [np.any(np.isinf(M))] *)
Definition any_isinf (M : list (list F)) : bool :=
  existsb (existsb fisinf) M.

(** [l[a:b]] for [0 ≤ a ≤ b]. *)
Definition slice (l : list F) (a b : nat) : list F := take (b - a) (drop a l).

Fixpoint chunks (r c : nat) (l : list F) : list (list F) :=
  match r with
  | 0 => []
  | S r' => take c l :: chunks r' c (drop c l)
  end.

(** [l.reshape([r, c])]: fails unless the sizes agree. *)
Definition reshape (l : list F) (r c : nat) : res (list (list F)) :=
  if length l =? r * c then Ok (chunks r c l) else Raise ValueError.

(** [np.tril_indices(n)]: the pairs (i, j) with j ≤ i, row by row. *)
Definition tril_indices (n : nat) : list (nat * nat) :=
  seq 0 n ≫= λ i, (λ j, (i, j)) <$> seq 0 (S i).

(** Broadcasting a 1-D value to length [k]: same length, or length 1. *)
Definition broadcast_to (vals : list F) (k : nat) : res (list F) :=
  if length vals =? k then Ok vals
  else match vals with
       | [v] => Ok (replicate k v)
       | _ => Raise ValueError
       end.

Definition setitem2 (M : list (list F)) (i j : nat) (v : F) : list (list F) :=
  alter (λ r, <[j := v]> r) i M.

(** [M[idx] = vals] with [idx] a pair of index arrays. *)
Definition setitem_fancy (M : list (list F)) (idx : list (nat * nat))
    (vals : list F) : res (list (list F)) :=
  vals' ← broadcast_to vals (length idx);
  Ok (fold_left (λ M' '((i, j), v), setitem2 M' i j v) (zip idx vals') M).

(** [M[idx]] with [idx] a pair of index arrays. *)
Definition getitem_fancy (M : list (list F)) (idx : list (nat * nat))
    : res (list F) :=
  mapM (λ '(i, j), r ← getitem M i; getitem r j) idx.
End numpy.

(** ** python/BEKK.py: the parameter codec *)

Section codec.
Context {F : Type} `{!Scalar F}.

Definition convert_theta_to_abc (theta : list F) (n : nat)
    : res (list (list F) * list (list F) * list (list F)) :=
  A ← reshape (slice theta 0 (n ^ 2)) n n;
  B ← reshape (slice theta (n ^ 2) (2 * n ^ 2)) n n;
  let C := zeros n n in
  C ← setitem_fancy C (tril_indices n) (drop (2 * n ^ 2) theta);
  Ok (A, B, C).

Definition convert_theta_to_ab (theta : list F) (n : nat)
    : res (list (list F) * list (list F)) :=
  A ← reshape (slice theta 0 (n ^ 2)) n n;
  B ← reshape (slice theta (n ^ 2) (2 * n ^ 2)) n n;
  Ok (A, B).

Definition convert_abc_to_theta (A B C : list (list F)) : res (list F) :=
  tril ← getitem_fancy C (tril_indices (nrows C));
  Ok (mjoin A ++ mjoin B ++ tril).
End codec.

(** In-place stores into a buffer: [l[i] = x] and [H[t] += X]. *)
Definition setitem {A} (l : list A) (i : nat) (x : A) : res (list A) :=
  if i <? length l then Ok (<[i := x]> l) else Raise IndexError.

(** ** python/BEKK.py: covariance recursion and likelihood *)

Section bekk.
Context {F : Type} `{!Scalar F, !Lapack F, !Libm F, !Random F}.

Definition iadd (H : list (list (list F))) (t : nat) (X : list (list F))
    : res (list (list (list F))) :=
  Ht ← getitem H t; setitem H t (madd Ht X).

Definition estimate_H0 (u : list (list F)) : list (list F) :=
  let T := nrows u in
  mdiv (dot (transpose u) u) (of_nat T).

(** The body of the [while] loop of [stationary_H]. *)
Definition stationary_next (A B C Hold : list (list F)) : list (list F) :=
  madd (madd (dot C (transpose C)) (dot (dot A Hold) (transpose A)))
       (dot (dot B Hold) (transpose B)).

(** [while (norm > 1e-3) or (i < 1000): ...], returning the final
    [(i, norm, Hnew)]. *)
Fixpoint stationary_loop (fuel : nat) (A B C : list (list F)) (i : nat)
    (nrm : F) (Hold : list (list F)) (Hnew : option (list (list F)))
    : res (nat * F * list (list F)) :=
  if fltb lit_1em3 nrm || (i <? 1000) then
    match fuel with
    | 0 => OutOfFuel
    | S fuel' =>
        let Hnew' := stationary_next A B C Hold in
        let nrm' := norm (msub Hnew' Hold) in
        stationary_loop fuel' A B C (S i) nrm' Hnew' (Some Hnew')
    end
  else
    match Hnew with
    | Some H => Ok (i, nrm, H)
    | None => Raise UnboundLocalError
    end.

Definition stationary_run (fuel : nat) (A B C : list (list F))
    : res (nat * F * list (list F)) :=
  stationary_loop fuel A B C 0 lit_1e3 (eye (nrows A)) None.

Definition stationary_H (fuel : nat) (A B C : list (list F))
    : res (list (list F)) :=
  '(_, _, Hnew) ← stationary_run fuel A B C; Ok Hnew.

(** The guard of [contribution]. *)
Definition bad (H : list (list F)) : bool :=
  any_isinf H
  || isclose (linalg_det H) fzero
  || fltb lit_1e20 (linalg_det H)
  || fltb (linalg_det H) fzero.

Definition contribution (u : list F) (H : list (list F)) : res F :=
  if bad H then Ok lit_1e10
  else
    let f := np_log (linalg_det H) in
    Hinv ← linalg_inv H;
    Ok (fadd f (vdot (vec_dot u Hinv) u)).

(** One pass of [for t in range(1, T)] in [likelihood]; the state is
    the buffer [H] and the accumulator [f]. *)
Definition likelihood_step (A B u : list (list F)) (t : nat)
    (st : list (list (list F)) * F) : res (list (list (list F)) * F) :=
  let '(H, f) := st in
  H0 ← getitem H 0;
  H ← setitem H t H0;
  ut1 ← getitem u (t - 1);
  H0 ← getitem H 0;
  H ← iadd H t (dot (dot A (msub (outer ut1 ut1) H0)) (transpose A));
  Ht1 ← getitem H (t - 1);
  H0 ← getitem H 0;
  H ← iadd H t (dot (dot B (msub Ht1 H0)) (transpose B));
  ut ← getitem u t;
  Ht ← getitem H t;
  c ← contribution ut Ht;
  Ok (H, fadd f c).

(** [likelihood] up to its final test, exposing the local buffer [H]. *)
Definition likelihood_body (theta : list F) (u : list (list F))
    : res (list (list (list F)) * F) :=
  let T := nrows u in
  let n := ncols u in
  '(A, B) ← convert_theta_to_ab theta n;
  let H := np_empty T n n in
  H ← setitem H 0 (estimate_H0 u);
  u0 ← getitem u 0;
  H0 ← getitem H 0;
  f ← contribution u0 H0;
  for_each (seq 1 (T - 1)) (likelihood_step A B u) (H, f).

Definition likelihood (theta : list F) (u : list (list F)) : res F :=
  '(_, f) ← likelihood_body theta u;
  Ok (if fisinf f then lit_1e10 else f).

(** One pass of [for t in range(1, T)] in [simulate_BEKK]. *)
Definition simulate_step (A B C e : list (list F)) (t : nat)
    (st : list (list F) * list (list (list F)))
    : res (list (list F) * list (list (list F))) :=
  let '(u, H) := st in
  H ← setitem H t (dot C (transpose C));
  ut1 ← getitem u (t - 1);
  H ← iadd H t (dot (dot A (outer ut1 ut1)) (transpose A));
  Ht1 ← getitem H (t - 1);
  H ← iadd H t (dot (dot B Ht1) (transpose B));
  Ht ← getitem H t;
  L ← linalg_cholesky Ht;
  et ← getitem e t;
  u ← setitem u t (mjoin (dot L (transpose [et])));
  Ok (u, H).

(** [simulate_BEKK] after the draws [e] have been made. *)
Definition simulate_path (T n fuel : nat) (A B C e : list (list F))
    : res (list (list F) * list (list (list F))) :=
  let H := np_empty T n n in
  let u := zeros T n in
  H0 ← stationary_H fuel A B C;
  H ← setitem H 0 H0;
  for_each (seq 1 (T - 1)) (simulate_step A B C e) (u, H).

(** The eigenvalue diagnostic that [simulate_BEKK] prints is not part
    of the model. *)
Definition simulate_BEKK (fuel : nat) (theta : list F) (n : nat) (g : rng)
    : res (list (list F) * list (list (list F))) * rng :=
  match convert_theta_to_abc theta n with
  | Ok (A, B, C) =>
      let T := 1000 in
      let '(e, g') := multivariate_normal n T g in
      (simulate_path T n fuel A B C e, g')
  | Raise x => (Raise x, g)
  | OutOfFuel => (OutOfFuel, g)
  end.
End bekk.

(** ** bekk/generate_data.py *)

(** [BEKKParams] is not among the sources: the three matrices it holds
    and the outcome of its [unconditional_var()] are taken as given. *)
Record BEKKParams (F : Type) : Type := {
  a_mat : list (list F);
  b_mat : list (list F);
  c_mat : list (list F);
  unconditional_var : res (list (list F));
}.
Arguments a_mat {F} _.
Arguments b_mat {F} _.
Arguments c_mat {F} _.
Arguments unconditional_var {F} _.

Section generate_data.
Context {F : Type} `{!Scalar F, !Lapack F, !Random F}.

(** The [if]/[elif] chain over [distr]. *)
Definition draw_error (distr : string) (nobs nstocks degf : nat) (lam : F)
    (g : rng) : res (list (list F)) * rng :=
  if String.eqb distr "normal" then
    let '(error, g') := multivariate_normal nstocks nobs g in (Ok error, g')
  else if String.eqb distr "student" then
    let '(error, g') := standard_t degf nobs nstocks g in (Ok error, g')
  else if String.eqb distr "skewt" then
    let '(error, g') := skewstudent_rvs degf lam nobs nstocks g in (Ok error, g')
  else (Raise ValueError, g).

(** [(error - error.mean(0)) / error.std(0)] *)
Definition standardize (error : list (list F)) : list (list F) :=
  let nobs := of_nat (nrows error) in
  let cols := seq 0 (ncols error) in
  let mean := fmap (λ j, fdiv (fsum (column j error)) nobs) cols in
  let std :=
    fmap (λ j, fsqrt (fdiv (fsum (fmap (λ x, let d := fabs (fsub x (mean !!! j)) in
                                           fmul d d) (column j error))) nobs))
        cols in
  fmap (λ row, zip_with fdiv (zip_with fsub row mean) std) error.

Definition simulate_bekk_step (param : BEKKParams F)
    (intercept error : list (list F)) (i : nat)
    (st : list (list F) * list (list (list F)))
    : res (list (list F) * list (list (list F))) :=
  let '(innov, hvar) := st in
  r ← getitem innov (i - 1);
  let innov2 := outer r r in
  h1 ← getitem hvar (i - 1);
  hvar ← setitem hvar i
    (madd (madd intercept
                (dot (dot (a_mat param) innov2) (transpose (a_mat param))))
          (dot (dot (b_mat param) h1) (transpose (b_mat param))));
  hi ← getitem hvar i;
  hvar12 ← linalg_cholesky hi;
  ei ← getitem error i;
  innov ← setitem innov i (mjoin (dot hvar12 (transpose [ei])));
  Ok (innov, hvar).

(** [simulate_bekk] from the standardisation on. *)
Definition simulate_bekk_path (param : BEKKParams F) (nobs nstocks : nat)
    (error : list (list F)) : res (list (list F) * list (list (list F))) :=
  let error := standardize error in
  let hvar := np_empty nobs nstocks nstocks in
  let innov := zeros nobs nstocks in
  h0 ← unconditional_var param;
  hvar ← setitem hvar 0 h0;
  let intercept := dot (c_mat param) (transpose (c_mat param)) in
  for_each (seq 1 (nobs - 1)) (simulate_bekk_step param intercept error)
           (innov, hvar).

Definition simulate_bekk (param : BEKKParams F) (nobs : nat) (distr : string)
    (degf : nat) (lam : F) (g : rng)
    : res (list (list F) * list (list (list F))) * rng :=
  let nstocks := nrows (a_mat param) in
  match draw_error distr nobs nstocks degf lam g with
  | (Ok error, g') => (simulate_bekk_path param nobs nstocks error, g')
  | (Raise x, g') => (Raise x, g')
  | (OutOfFuel, g') => (OutOfFuel, g')
  end.
End generate_data.

(** ** Reference linear algebra

    Textbook algorithms over the scalar operations, used to instantiate
    [Lapack]: cofactor expansion for the determinant, the adjugate for
    the inverse, Cholesky-Banachiewicz for the lower factor. In exact
    arithmetic they compute what LAPACK computes; on a 1×1 array they
    reduce to the entry, its reciprocal and its square root. *)

Section reference_linalg.
Context {F : Type} `{!Scalar F}.

Definition fneg (x : F) : F := fsub fzero x.
Definition drop_col (j : nat) (M : list (list F)) : list (list F) :=
  fmap (λ r : list F, delete j r) M.

Fixpoint det_rec (n : nat) (M : list (list F)) : F :=
  match n, M with
  | S k, r :: rest =>
      fsum (imap (λ j x, fmul (if Nat.even j then x else fneg x)
                              (det_rec k (drop_col j rest))) r)
  | _, _ => fone
  end.

Definition det_cofactor (M : list (list F)) : F := det_rec (length M) M.

Definition cofactor (M : list (list F)) (i j : nat) : F :=
  let m := det_cofactor (drop_col j (delete i M)) in
  if Nat.even (i + j) then m else fneg m.

Definition inv_adjugate (M : list (list F)) : res (list (list F)) :=
  let d := det_cofactor M in
  if feqb d fzero then Raise LinAlgError
  else
    let n := length M in
    Ok (fmap (λ i, fmap (λ j, fdiv (cofactor M j i) d) (seq 0 n)) (seq 0 n)).

(** Row [i] of the factor from row [Ai] of the matrix and the rows
    [L] already computed. *)
Fixpoint chol_row (Ai : list F) (L : list (list F)) (i : nat)
    (js : list nat) (row : list F) : res (list F) :=
  match js with
  | [] => Ok row
  | j :: js' =>
      if j =? i then
        let d := fsub (Ai !!! i) (vdot row row) in
        if fltb fzero d then chol_row Ai L i js' (row ++ [fsqrt d])
        else Raise LinAlgError
      else
        let Lj := L !!! j in
        chol_row Ai L i js'
          (row ++ [fdiv (fsub (Ai !!! j) (vdot row (take j Lj))) (Lj !!! j)])
  end.

Fixpoint chol_rows (n : nat) (rows : list (list F)) (i : nat)
    (L : list (list F)) : res (list (list F)) :=
  match rows with
  | [] => Ok L
  | Ai :: rows' =>
      row ← chol_row Ai L i (seq 0 (S i)) [];
      chol_rows n rows' (S i) (L ++ [row ++ zeros1 (n - S i)])
  end.

Definition cholesky_lower (M : list (list F)) : res (list (list F)) :=
  chol_rows (length M) M 0 [].

Definition reference_lapack : Lapack F :=
  {| linalg_det := det_cofactor;
     linalg_inv := inv_adjugate;
     linalg_cholesky := cholesky_lower |}.
End reference_linalg.

(** ** The two scalar models *)

(** Exact real arithmetic: nothing is infinite. *)
#[export] Instance R_scalar : Scalar R := {|
  fzero := 0%R;
  fone := 1%R;
  fadd := Rplus;
  fsub := Rminus;
  fmul := Rmult;
  fdiv := Rdiv;
  fabs := Rabs;
  fsqrt := R_sqrt.sqrt;
  feqb := λ a b, if Req_dec_T a b then true else false;
  fltb := λ a b, if Rlt_dec a b then true else false;
  fleb := λ a b, if Rle_dec a b then true else false;
  fisinf := λ _, false;
  of_nat := INR;
  uninit := 0%R;
  lit_1e10 := 1e10%R;
  lit_1e20 := 1e20%R;
  lit_1e3 := 1e3%R;
  lit_1em3 := 1e-3%R;
  lit_rtol := 1e-5%R;
  lit_atol := 1e-8%R;
|}.

#[export] Instance R_lapack : Lapack R := reference_lapack.
#[export] Instance R_libm : Libm R := {| np_log := Rpower.ln |}.

(** IEEE 754 binary64, the [float] of Python. *)
#[export] Instance float_scalar : Scalar float := {|
  fzero := 0%float;
  fone := 1%float;
  fadd := PrimFloat.add;
  fsub := PrimFloat.sub;
  fmul := PrimFloat.mul;
  fdiv := PrimFloat.div;
  fabs := PrimFloat.abs;
  fsqrt := PrimFloat.sqrt;
  feqb := PrimFloat.eqb;
  fltb := PrimFloat.ltb;
  fleb := PrimFloat.leb;
  fisinf := λ x, PrimFloat.eqb (PrimFloat.abs x) infinity;
  of_nat := λ n, PrimFloat.of_uint63 (Uint63.of_Z (Z.of_nat n));
  uninit := nan;
  lit_1e10 := 1e10%float;
  lit_1e20 := 1e20%float;
  lit_1e3 := 1e3%float;
  lit_1em3 := 0x1.0624dd2f1a9fcp-10%float;
  lit_rtol := 0x1.4f8b588e368f1p-17%float;
  lit_atol := 0x1.5798ee2308c3ap-27%float;
|}.

#[export] Instance float_lapack : Lapack float := reference_lapack.

(** Draws replayed from a tape of recorded rows. *)
#[export] Instance tape_random (F : Type) : Random F := {|
  rng := list (list F);
  multivariate_normal := λ _ T tape, (take T tape, drop T tape);
  standard_t := λ _ nobs _ tape, (take nobs tape, drop nobs tape);
  skewstudent_rvs := λ _ _ nobs _ tape, (take nobs tape, drop nobs tape);
|}.

(** A one-asset parameter set and a tape of draws, for running
    [simulate_bekk]. *)
Definition example_params : BEKKParams float := {|
  a_mat := [[0.5]]%float;
  b_mat := [[0.5]]%float;
  c_mat := [[1]]%float;
  unconditional_var := Ok [[2]]%float;
|}.

Definition example_tape : list (list float) :=
  [[1]; [-1]; [1]; [-1]]%float.

(** ** Vocabulary of the statements *)

(** A 2-D array of shape (r, c). *)
Definition wf_mat {F : Type} (r c : nat) (M : list (list F)) : Prop :=
  length M = r ∧ Forall (λ row, length row = c) M.

(** Entries above the diagonal are zero. *)
Definition lower_triangular {F : Type} `{!Scalar F} (C : list (list F)) : Prop :=
  ∀ i j, i < j → (C !!! i) !!! j = fzero.

Definition symmetric {F : Type} `{!Scalar F} (M : list (list F)) : Prop :=
  transpose M = M.

(** Positive definiteness of a real matrix: x' M x > 0 for x ≠ 0. *)
Definition positive_definite (M : list (list R)) : Prop :=
  ∀ x : list R, length x = length M → x ≠ zeros1 (length M) →
                (0 < vdot (vec_dot x M) x)%R.

(** The contract assumed of [np.linalg.inv]: it returns an inverse for
    every matrix whose determinant [np.isclose] does not find close to
    zero (LAPACK reports a singular matrix only on an exactly zero
    pivot, which makes the determinant zero). *)
Definition inv_succeeds_off_singular (F : Type) `{!Scalar F, !Lapack F} : Prop :=
  ∀ H : list (list F),
    isclose (linalg_det H) fzero = false → ∃ Hinv, linalg_inv H = Ok Hinv.

(** The estimation-mode update as the specification writes it:
    H0 + A (u u' − H0) A' + B (Hprev − H0) B'. *)
Definition estimation_update {F : Type} `{!Scalar F} (A B H0 : list (list F))
    (uprev : list F) (Hprev : list (list F)) : list (list F) :=
  madd (madd H0 (dot (dot A (msub (outer uprev uprev) H0)) (transpose A)))
       (dot (dot B (msub Hprev H0)) (transpose B)).

(** The simulation-mode update as the specification writes it:
    CC' + A (u u') A' + B Hprev B'. *)
Definition simulation_update {F : Type} `{!Scalar F} (A B C : list (list F))
    (uprev : list F) (Hprev : list (list F)) : list (list F) :=
  madd (madd (dot C (transpose C))
             (dot (dot A (outer uprev uprev)) (transpose A)))
       (dot (dot B Hprev) (transpose B)).

(** What one simulated step establishes at index [t]. *)
Definition simulated_at {F : Type} `{!Scalar F, !Lapack F}
    (A B C e : list (list F)) (u : list (list F))
    (H : list (list (list F))) (t : nat) : Prop :=
  ∃ ut1 Ht1 L et,
    u !! (t - 1) = Some ut1 ∧ H !! (t - 1) = Some Ht1 ∧
    H !! t = Some (simulation_update A B C ut1 Ht1) ∧
    linalg_cholesky (simulation_update A B C ut1 Ht1) = Ok L ∧
    e !! t = Some et ∧
    u !! t = Some (mjoin (dot L (transpose [et]))).

(** The iterates of the fixed-point map of [stationary_H], started at
    the identity, and the norm of the change made by pass [k + 1]. *)
Definition stationary_iterate {F : Type} `{!Scalar F} (A B C : list (list F))
    (k : nat) : list (list F) :=
  Nat.iter k (stationary_next A B C) (eye (nrows A)).

Definition stationary_change {F : Type} `{!Scalar F} (A B C : list (list F))
    (k : nat) : F :=
  norm (msub (stationary_iterate A B C (S k)) (stationary_iterate A B C k)).

(** The scalar recursion behind the 1×1 case: h ↦ c² + (a² + b²) h. *)
Fixpoint scalar_iterate (a b c : R) (k : nat) : R :=
  match k with
  | 0 => 1%R
  | S k' => (c * c + (a * a + b * b) * scalar_iterate a b c k')%R
  end.

(** Finite sums of reals indexed by [0 .. n-1]. *)
Definition rsum (f : nat → R) (n : nat) : R := fsum (f <$> seq 0 n).

(** The contract assumed of [scipy.linalg.cholesky]: the factor has as
    many rows as the matrix. *)
Definition cholesky_keeps_size (F : Type) `{!Lapack F} : Prop :=
  ∀ M L : list (list F), linalg_cholesky M = Ok L → length L = length M.

(** [np.kron(A, B)], the argument of the eigenvalue diagnostic of
    [simulate_BEKK]: the block matrix of the [A[i][j] * B]. *)
Definition kron {F : Type} `{!Scalar F} (A B : list (list F))
    : list (list F) :=
  mjoin (fmap (λ ra : list F,
                 fmap (λ rb : list F,
                         mjoin (fmap (λ a : F, fmap (λ b : F, fmul a b) rb) ra))
                      B) A).

(** Doubles that are neither infinite nor NaN, and those among them
    that are not the negative zero. *)
Definition float_finite (x : float) : bool :=
  match Prim2SF x with
  | S754_zero _ | S754_finite _ _ _ => true
  | _ => false
  end.

Definition float_regular (x : float) : bool :=
  match Prim2SF x with
  | S754_zero s => negb s
  | S754_finite _ _ _ => true
  | _ => false
  end.

(** A test that holds at every entry of a 2-D array. *)
Definition all_entries {F : Type} (p : F → bool) (M : list (list F)) : bool :=
  forallb (forallb p) M.

(** A two-asset parameter set with small [A] and [B] (the absolute row
    sums of [A⊗A + B⊗B] are at most 0.625, which bounds its spectral
    radius) and a large intercept. *)
Definition cycle_A : list (list float) := [[0.125; 0.125]; [0; -0.75]]%float.
Definition cycle_B : list (list float) :=
  [[0.125; -0.125]; [0.125; -0.125]]%float.
Definition cycle_C : list (list float) := [[1e10; 0]; [1e10; 1e10]]%float.

(** * Proofs *)

Ltac rsimp :=
  cbn [fzero fone fadd fsub fmul fdiv fabs fsqrt feqb fltb fleb fisinf of_nat
       lit_1e10 lit_1e20 lit_1e3 lit_1em3 lit_rtol lit_atol R_scalar] in *.

Section monad_facts.
Context {A B : Type}.

Lemma bind_Ok (a : A) (f : A → res B) : (x ← Ok a; f x) = f a.
Proof. reflexivity. Qed.

Lemma bind_Raise (e : exn) (f : A → res B) : (x ← Raise e; f x) = Raise e.
Proof. reflexivity. Qed.

Lemma bind_Ok_inv (m : res A) (f : A → res B) (b : B) :
  (x ← m; f x) = Ok b → ∃ a, m = Ok a ∧ f a = Ok b.
Proof. destruct m as [a| |]; simpl; [eauto | discriminate..]. Qed.

Lemma getitem_Ok (l : list A) (i : nat) (a : A) :
  l !! i = Some a → getitem l i = Ok a.
Proof. unfold getitem. by intros ->. Qed.

Lemma getitem_Ok_inv (l : list A) (i : nat) (a : A) :
  getitem l i = Ok a → l !! i = Some a.
Proof. unfold getitem. destruct (l !! i); naive_solver. Qed.

Lemma setitem_Ok (l : list A) (i : nat) (x : A) :
  i < length l → setitem l i x = Ok (<[i := x]> l).
Proof. unfold setitem. intros Hi. by apply Nat.ltb_lt in Hi as ->. Qed.

Lemma setitem_Ok_inv (l l' : list A) (i : nat) (x : A) :
  setitem l i x = Ok l' → i < length l ∧ l' = <[i := x]> l.
Proof.
  unfold setitem. destruct (i <? length l) eqn:E; [|discriminate].
  apply Nat.ltb_lt in E. naive_solver.
Qed.
End monad_facts.

Lemma for_each_app {S} (l1 l2 : list nat) (body : nat → S → res S) (s : S) :
  for_each (l1 ++ l2) body s = (s' ← for_each l1 body s; for_each l2 body s').
Proof.
  revert s. induction l1 as [|t l1 IH]; intros s; simpl; [done|].
  destruct (body t s); simpl; auto.
Qed.

Section codec_facts.
Context {F : Type} `{!Scalar F}.
Implicit Types (M A B C : list (list F)) (l theta : list F).

Lemma chunks_join r c M : wf_mat r c M → chunks r c (mjoin M) = M.
Proof.
  intros [<- Hc]. induction Hc as [|row M Hrow _ IH]; simpl; [done|].
  rewrite take_app_length', drop_app_length' by done. by rewrite IH.
Qed.

Lemma length_join_wf r c M : wf_mat r c M → length (mjoin M) = r * c.
Proof.
  intros [<- Hc]. induction Hc as [|row M Hrow _ IH]; simpl; [done|].
  rewrite length_app. lia.
Qed.

Lemma wf_chunks r c l : length l = r * c → wf_mat r c (chunks r c l).
Proof.
  revert l. induction r as [|r IH]; intros l Hl; simpl.
  - by split.
  - destruct (IH (drop c l)) as [Hlen Hall]; [rewrite length_drop; lia|].
    split; simpl; [by rewrite Hlen|].
    constructor; [rewrite length_take; lia | done].
Qed.

Lemma reshape_Ok l r c : length l = r * c → reshape l r c = Ok (chunks r c l).
Proof. unfold reshape. intros Hl. by apply Nat.eqb_eq in Hl as ->. Qed.

Lemma reshape_Raise l r c : length l ≠ r * c → reshape l r c = Raise ValueError.
Proof. unfold reshape. intros Hl. by apply Nat.eqb_neq in Hl as ->. Qed.

Lemma length_slice l a b : length (slice l a b) = min (b - a) (length l - a).
Proof. unfold slice. by rewrite length_take, length_drop. Qed.
End codec_facts.

Section codec_facts2.
Context {F : Type} `{!Scalar F}.
Implicit Types (M A B C : list (list F)) (l theta vals : list F).

Lemma mat_ext r c M N :
  wf_mat r c M → wf_mat r c N →
  (∀ i j, i < r → j < c → (M !!! i) !!! j = (N !!! i) !!! j) → M = N.
Proof.
  intros [HM HMc] [HN HNc] Hent.
  apply (list_eq_same_length _ _ r); [done..|].
  intros i x y Hi Hx Hy.
  pose proof (Forall_lookup_1 _ _ _ _ HMc Hx) as Hlx.
  pose proof (Forall_lookup_1 _ _ _ _ HNc Hy) as Hly.
  apply (list_eq_same_length _ _ c); [done..|].
  intros j a b Hj Ha Hb.
  specialize (Hent i j Hi Hj).
  rewrite (list_lookup_total_correct _ _ _ Hx) in Hent.
  rewrite (list_lookup_total_correct _ _ _ Hy) in Hent.
  rewrite (list_lookup_total_correct _ _ _ Ha) in Hent.
  by rewrite (list_lookup_total_correct _ _ _ Hb) in Hent.
Qed.

Lemma wf_mat_row r c M i : wf_mat r c M → i < r → length (M !!! i) = c.
Proof.
  intros [<- Hc] Hi. apply (Forall_lookup_1 _ _ i _ Hc).
  by apply list_lookup_lookup_total_lt.
Qed.

Lemma wf_zeros r c : wf_mat r c (zeros r c).
Proof.
  split; [apply length_replicate|]. apply Forall_replicate, length_replicate.
Qed.

Lemma zeros_entry r c i j : (zeros r c !!! i) !!! j = fzero.
Proof.
  unfold zeros, zeros1.
  destruct (decide (i < r)) as [Hi|Hi].
  - rewrite lookup_total_replicate_2 by done.
    destruct (decide (j < c)) as [Hj|Hj].
    + by rewrite lookup_total_replicate_2.
    + rewrite list_lookup_total_alt, lookup_ge_None_2; [done|].
      rewrite length_replicate. lia.
  - rewrite (list_lookup_total_alt (replicate r _)), lookup_ge_None_2;
      [done | rewrite length_replicate; lia].
Qed.

(** *** [np.tril_indices] *)

Lemma tril_indices_S n :
  tril_indices (S n) = tril_indices n ++ ((λ j, (n, j)) <$> seq 0 (S n)).
Proof.
  unfold tril_indices. rewrite (seq_S n 0) at 1.
  by rewrite bind_app, bind_singleton.
Qed.

Lemma length_tril_indices n : 2 * length (tril_indices n) = n * (n + 1).
Proof.
  induction n as [|n IH]; [done|].
  rewrite tril_indices_S, length_app, length_fmap, length_seq. lia.
Qed.

Lemma length_tril_indices_div n : length (tril_indices n) = n * (n + 1) / 2.
Proof.
  apply Nat.div_unique_exact; [lia|].
  by rewrite length_tril_indices.
Qed.

Lemma elem_of_tril_indices n i j : (i, j) ∈ tril_indices n ↔ j ≤ i ∧ i < n.
Proof.
  unfold tril_indices. rewrite list_elem_of_bind. split.
  - intros (i' & Hin & Hi'). apply list_elem_of_fmap in Hin as (j' & Heq & Hj').
    apply elem_of_seq in Hi', Hj'. simplify_eq. lia.
  - intros [Hji Hin]. exists i. split.
    + apply list_elem_of_fmap. exists j. split; [done|]. apply elem_of_seq. lia.
    + apply elem_of_seq. lia.
Qed.

(** *** Gather and scatter over index pairs *)

Lemma getitem_fancy_Ok r c M idx :
  wf_mat r c M → (∀ i j, (i, j) ∈ idx → i < r ∧ j < c) →
  getitem_fancy M idx = Ok ((λ '(i, j), (M !!! i) !!! j) <$> idx).
Proof.
  intros HM Hidx. unfold getitem_fancy.
  induction idx as [|[i j] idx IH]; [done|].
  destruct (Hidx i j) as [Hi Hj]; [by left|].
  cbn [mapM fmap list_fmap].
  rewrite (getitem_Ok M i (M !!! i)); cycle 1.
  { apply list_lookup_lookup_total_lt. by destruct HM as [-> _]. }
  rewrite bind_Ok.
  rewrite (getitem_Ok (M !!! i) j ((M !!! i) !!! j)); cycle 1.
  { apply list_lookup_lookup_total_lt. by rewrite (wf_mat_row r c). }
  rewrite bind_Ok.
  fold (mapM (M:=res) (λ '(i, j), r ← getitem M i; getitem r j)).
  rewrite IH; [done|]. intros i' j' Hin. apply Hidx. by right.
Qed.

Lemma wf_setitem2 r c M i j v : wf_mat r c M → wf_mat r c (setitem2 M i j v).
Proof.
  intros [Hr Hc]. unfold setitem2. split; [by rewrite length_alter|].
  apply Forall_lookup. intros k row Hk.
  rewrite list_lookup_alter in Hk. case_decide as Hik.
  - destruct (M !! i) as [row'|] eqn:Hrow; simplify_eq/=.
    rewrite length_insert. by eapply (Forall_lookup_1 _ _ _ _ Hc).
  - by eapply (Forall_lookup_1 _ _ _ _ Hc).
Qed.

Lemma setitem2_entry r c M i j v i' j' :
  wf_mat r c M → i < r → j < c →
  (setitem2 M i j v !!! i') !!! j' =
    if decide ((i, j) = (i', j')) then v else (M !!! i') !!! j'.
Proof.
  intros HM Hi Hj. unfold setitem2.
  rewrite list_lookup_total_alter.
  destruct HM as [Hr Hc]. rewrite Hr.
  destruct (decide (i = i')) as [<-|Hne].
  - rewrite decide_True by done.
    rewrite list_lookup_total_insert.
    rewrite (wf_mat_row r c) by done.
    destruct (decide (j = j')) as [<-|Hne].
    + by rewrite !decide_True.
    + rewrite !decide_False; [done | congruence | intros [? _]; congruence].
  - rewrite !decide_False; [done | congruence | intros [? _]; congruence].
Qed.

Lemma scatter_entry r c (g : nat * nat → F) idx M :
  wf_mat r c M → (∀ i j, (i, j) ∈ idx → i < r ∧ j < c) →
  let M' := fold_left (λ M' '((i, j), v), setitem2 M' i j v)
                      (zip idx (g <$> idx)) M in
  wf_mat r c M' ∧
  ∀ i j, (M' !!! i) !!! j =
         if decide ((i, j) ∈ idx) then g (i, j) else (M !!! i) !!! j.
Proof.
  revert M. induction idx as [|[i0 j0] idx IH]; intros M HM Hidx; simpl.
  - by split.
  - destruct (Hidx i0 j0) as [Hi0 Hj0]; [by left|].
    destruct (IH (setitem2 M i0 j0 (g (i0, j0)))) as [Hwf Hent].
    { by apply wf_setitem2. }
    { intros i j Hin. apply Hidx. by right. }
    split; [done|]. intros i j. rewrite Hent.
    rewrite (setitem2_entry r c) by done.
    destruct (decide ((i, j) ∈ idx)) as [Hin|Hnin].
    + rewrite decide_True; [done | by right].
    + destruct (decide ((i0, j0) = (i, j))) as [Heq|Hne].
      * rewrite decide_True; [by rewrite Heq | rewrite Heq; by left].
      * rewrite decide_False; [done|].
        intros [Heq|Hin]%elem_of_cons; [congruence | done].
Qed.

Lemma broadcast_to_same (vals : list F) k : length vals = k → broadcast_to vals k = Ok vals.
Proof. unfold broadcast_to. intros Hk. by apply Nat.eqb_eq in Hk as ->. Qed.

Lemma broadcast_to_one (v : F) k : broadcast_to [v] k = Ok (replicate k v).
Proof.
  unfold broadcast_to. destruct (length [v] =? k) eqn:E; [|done].
  apply Nat.eqb_eq in E as <-. done.
Qed.

Lemma broadcast_to_Raise (vals : list F) k :
  length vals ≠ k → length vals ≠ 1 → broadcast_to vals k = Raise ValueError.
Proof.
  unfold broadcast_to. intros Hk H1. apply Nat.eqb_neq in Hk as ->.
  by destruct vals as [|v [|w vals]].
Qed.
End codec_facts2.

Section decode.
Context {F : Type} `{!Scalar F}.

Local Ltac sq_lia :=
  repeat match goal with
         | |- context [?n ^ 2] =>
             lazymatch goal with
             | _ : n ^ 2 = n * n |- _ => fail
             | _ => pose proof (Nat.pow_2_r n)
             end
         end; lia.

Lemma convert_theta_to_ab_Ok (theta : list F) n :
  2 * n ^ 2 ≤ length theta →
  convert_theta_to_ab theta n =
    Ok (chunks n n (slice theta 0 (n ^ 2)),
        chunks n n (slice theta (n ^ 2) (2 * n ^ 2))).
Proof.
  intros Hlen. unfold convert_theta_to_ab.
  rewrite !reshape_Ok by (rewrite length_slice; sq_lia).
  reflexivity.
Qed.

Lemma convert_theta_to_ab_Raise (theta : list F) n :
  length theta < 2 * n ^ 2 → convert_theta_to_ab theta n = Raise ValueError.
Proof.
  intros Hlen. unfold convert_theta_to_ab.
  destruct (decide (length theta < n ^ 2)) as [Hlt|Hge].
  - rewrite (reshape_Raise (slice theta 0 (n ^ 2))); [done|].
    rewrite length_slice. sq_lia.
  - rewrite (reshape_Ok (slice theta 0 (n ^ 2)))
      by (rewrite length_slice; sq_lia).
    rewrite bind_Ok, reshape_Raise; [done|]. rewrite length_slice. sq_lia.
Qed.

Lemma convert_theta_to_abc_short (theta : list F) n :
  length theta < 2 * n ^ 2 → convert_theta_to_abc theta n = Raise ValueError.
Proof.
  intros Hlen. unfold convert_theta_to_abc.
  destruct (decide (length theta < n ^ 2)) as [Hlt|Hge].
  - rewrite (reshape_Raise (slice theta 0 (n ^ 2))); [done|].
    rewrite length_slice. sq_lia.
  - rewrite (reshape_Ok (slice theta 0 (n ^ 2)))
      by (rewrite length_slice; sq_lia).
    rewrite bind_Ok, reshape_Raise; [done|]. rewrite length_slice. sq_lia.
Qed.

Lemma convert_theta_to_abc_Raise (theta : list F) n :
  length theta ≠ 2 * n ^ 2 + n * (n + 1) / 2 →
  length theta ≠ 2 * n ^ 2 + 1 →
  convert_theta_to_abc theta n = Raise ValueError.
Proof.
  intros Hk H1.
  destruct (decide (length theta < 2 * n ^ 2)) as [Hlt|Hge].
  { by apply convert_theta_to_abc_short. }
  unfold convert_theta_to_abc.
  rewrite !reshape_Ok by (rewrite length_slice; sq_lia). rewrite !bind_Ok.
  unfold setitem_fancy. rewrite broadcast_to_Raise; [done|..].
  - rewrite length_drop, length_tril_indices_div. sq_lia.
  - rewrite length_drop. sq_lia.
Qed.

Lemma convert_theta_to_abc_Ok (theta : list F) n :
  length theta = 2 * n ^ 2 + n * (n + 1) / 2 ∨ length theta = 2 * n ^ 2 + 1 →
  ∃ A B C, convert_theta_to_abc theta n = Ok (A, B, C).
Proof.
  intros Hlen. unfold convert_theta_to_abc.
  rewrite !reshape_Ok by (rewrite length_slice; sq_lia). rewrite !bind_Ok.
  unfold setitem_fancy.
  pose proof (length_drop theta (2 * n ^ 2)) as Hd.
  pose proof (length_tril_indices_div n) as Hk.
  pose proof (Nat.pow_2_r n) as Hsq.
  destruct (decide (length (drop (2 * n ^ 2) theta)
                    = length (tril_indices n))) as [Heq|Hne].
  - rewrite broadcast_to_same by done. rewrite !bind_Ok. eauto.
  - destruct (drop (2 * n ^ 2) theta) as [|v [|w rest]];
      cbn [length] in Hd, Hne.
    + exfalso. destruct Hlen as [Hlen|Hlen]; lia.
    + rewrite broadcast_to_one, !bind_Ok. eauto.
    + exfalso. destruct Hlen as [Hlen|Hlen]; lia.
Qed.
End decode.


Section estimation.
Context {F : Type} `{!Scalar F, !Lapack F, !Libm F}.

Lemma contribution_bad (u : list F) H :
  bad H = true → contribution u H = Ok lit_1e10.
Proof. unfold contribution. by intros ->. Qed.

Lemma contribution_good (u : list F) H Hinv :
  bad H = false → linalg_inv H = Ok Hinv →
  contribution u H =
    Ok (fadd (np_log (linalg_det H)) (vdot (vec_dot u Hinv) u)).
Proof. unfold contribution. by intros -> ->. Qed.

Lemma bad_false_isclose H : bad H = false → isclose (linalg_det H) fzero = false.
Proof.
  unfold bad. intros Hb.
  repeat (apply orb_false_iff in Hb as [Hb ?]). done.
Qed.

Lemma contribution_total (u : list F) H :
  inv_succeeds_off_singular F → ∃ c, contribution u H = Ok c.
Proof.
  intros Hinv. destruct (bad H) eqn:Hb.
  - eexists. by apply contribution_bad.
  - destruct (Hinv H (bad_false_isclose H Hb)) as [Hi HHi].
    eexists. by apply contribution_good.
Qed.

Lemma likelihood_step_Ok A B (u : list (list F)) t H f H0 ut1 Ht1 ut c :
  1 ≤ t < length H →
  H !! 0 = Some H0 → H !! (t - 1) = Some Ht1 →
  u !! (t - 1) = Some ut1 → u !! t = Some ut →
  contribution ut (estimation_update A B H0 ut1 Ht1) = Ok c →
  likelihood_step A B u t (H, f) =
    Ok (<[t := estimation_update A B H0 ut1 Ht1]> H, fadd f c).
Proof.
  intros [Hge HtT] HH0 HHt1 Hut1 Hut Hc. unfold likelihood_step, iadd.
  rewrite (getitem_Ok _ _ _ HH0), bind_Ok.
  rewrite setitem_Ok, bind_Ok by done.
  rewrite (getitem_Ok _ _ _ Hut1), bind_Ok.
  rewrite (getitem_Ok (<[t:=H0]> H) 0 H0), bind_Ok
    by (rewrite list_lookup_insert_ne by lia; done).
  rewrite (getitem_Ok (<[t:=H0]> H) t H0), bind_Ok
    by (by apply list_lookup_insert_eq).
  rewrite setitem_Ok, bind_Ok by (by rewrite length_insert).
  rewrite list_insert_insert_eq.
  match goal with |- context [<[t := ?X]> H] => set (H1 := <[t := X]> H) end.
  assert (Hlen1 : length H1 = length H) by apply length_insert.
  rewrite (getitem_Ok H1 (t - 1) Ht1), bind_Ok
    by (unfold H1; rewrite list_lookup_insert_ne by lia; done).
  rewrite (getitem_Ok H1 0 H0), bind_Ok
    by (unfold H1; rewrite list_lookup_insert_ne by lia; done).
  rewrite (getitem_Ok H1 t _ (list_lookup_insert_eq _ _ _ HtT)), bind_Ok.
  rewrite setitem_Ok, bind_Ok by lia.
  unfold H1. rewrite list_insert_insert_eq.
  fold (estimation_update A B H0 ut1 Ht1).
  rewrite (getitem_Ok _ _ _ Hut), bind_Ok.
  rewrite (getitem_Ok _ t _ (list_lookup_insert_eq _ _ _ HtT)), bind_Ok.
  by rewrite Hc.
Qed.

Lemma likelihood_loop A B (u : list (list F)) H0 H f k :
  inv_succeeds_off_singular F →
  length u = length H → k < length H → H !! 0 = Some H0 →
  ∃ H' cs,
    for_each (seq 1 k) (likelihood_step A B u) (H, f)
      = Ok (H', fold_left fadd cs f) ∧
    length H' = length H ∧ length cs = k ∧
    H' !! 0 = Some H0 ∧
    (∀ t, k < t → H' !! t = H !! t) ∧
    (∀ t, 1 ≤ t ≤ k → ∃ ut1 Ht1 ut c,
        u !! (t - 1) = Some ut1 ∧ H' !! (t - 1) = Some Ht1 ∧
        H' !! t = Some (estimation_update A B H0 ut1 Ht1) ∧
        u !! t = Some ut ∧ cs !! (t - 1) = Some c ∧
        contribution ut (estimation_update A B H0 ut1 Ht1) = Ok c).
Proof.
  intros Hguard Hlen Hk HH0. induction k as [|k IH].
  - exists H, []. repeat split; try done. intros t Ht. lia.
  - destruct IH as (H' & cs & Hrun & HlenH' & Hlencs & HH0' & Hrest & Hrec);
      [lia|].
    destruct (lookup_lt_is_Some_2 u k) as [ut1 Hut1]; [lia|].
    destruct (lookup_lt_is_Some_2 u (S k)) as [ut Hut]; [lia|].
    destruct (lookup_lt_is_Some_2 H' k) as [Ht1 HHt1]; [lia|].
    destruct (contribution_total ut (estimation_update A B H0 ut1 Ht1) Hguard)
      as [c Hc].
    exists (<[S k := estimation_update A B H0 ut1 Ht1]> H'), (cs ++ [c]).
    split; [|split; [|split; [|split; [|split]]]].
    + rewrite seq_S, for_each_app, Hrun, bind_Ok. cbn [for_each].
      rewrite (likelihood_step_Ok A B u (1 + k) H' _ H0 ut1 Ht1 ut c);
        [by rewrite bind_Ok, fold_left_app
        | lia | done | by rewrite Nat.add_1_l, Nat.sub_1_r
        | by rewrite Nat.add_1_l, Nat.sub_1_r | done | done].
    + by rewrite length_insert.
    + rewrite length_app. simpl. lia.
    + by rewrite list_lookup_insert_ne.
    + intros t Ht. rewrite list_lookup_insert_ne by lia. apply Hrest. lia.
    + intros t Ht. destruct (decide (t = S k)) as [->|Hne].
      * exists ut1, Ht1, ut, c. rewrite Nat.sub_1_r. cbn [Nat.pred].
        split; [done|]. split; [by rewrite list_lookup_insert_ne by lia|].
        split; [apply list_lookup_insert_eq; lia|]. split; [done|].
        split; [|done]. rewrite lookup_app_r by lia.
        by rewrite Hlencs, Nat.sub_diag.
      * destruct (Hrec t) as (a & b & c' & d & ? & ? & ? & ? & ? & ?); [lia|].
        exists a, b, c', d. rewrite !list_lookup_insert_ne by lia.
        split; [done|]. split; [done|]. split; [done|]. split; [done|].
        split; [|done]. rewrite lookup_app_l; [done|]. lia.
Qed.

Lemma ncols_wf T n (u : list (list F)) : wf_mat T n u → 1 ≤ T → ncols u = n.
Proof.
  intros [HT Hc] H1. unfold ncols. destruct u as [|r u]; simpl in *; [lia|].
  by inversion Hc.
Qed.

Lemma likelihood_body_Ok theta (u : list (list F)) T n A B :
  inv_succeeds_off_singular F →
  wf_mat T n u → 1 ≤ T → convert_theta_to_ab theta n = Ok (A, B) →
  ∃ H c0 cs,
    likelihood_body theta u = Ok (H, fold_left fadd cs c0) ∧
    length H = T ∧ length (c0 :: cs) = T ∧
    H !! 0 = Some (estimate_H0 u) ∧
    (∀ t, 1 ≤ t < T → ∃ ut1 Ht1,
        u !! (t - 1) = Some ut1 ∧ H !! (t - 1) = Some Ht1 ∧
        H !! t = Some (estimation_update A B (estimate_H0 u) ut1 Ht1)) ∧
    (∀ t, t < T → ∃ ut Ht c,
        u !! t = Some ut ∧ H !! t = Some Ht ∧ (c0 :: cs) !! t = Some c ∧
        contribution ut Ht = Ok c).
Proof.
  intros Hguard Hu HT Hab. pose proof Hu as [HlenU _].
  unfold likelihood_body. rewrite (ncols_wf T n) by done. rewrite Hab, bind_Ok.
  unfold nrows. rewrite HlenU.
  set (H0 := estimate_H0 u).
  set (Hbuf := <[0 := H0]> (np_empty T n n)).
  assert (HlenB : length Hbuf = T).
  { unfold Hbuf, np_empty. by rewrite length_insert, length_replicate. }
  assert (HB0 : Hbuf !! 0 = Some H0).
  { apply list_lookup_insert_eq. unfold np_empty. rewrite length_replicate. lia. }
  rewrite setitem_Ok, bind_Ok
    by (unfold np_empty; rewrite length_replicate; lia).
  fold Hbuf.
  destruct (lookup_lt_is_Some_2 u 0) as [u0 Hu0]; [lia|].
  rewrite (getitem_Ok _ _ _ Hu0), bind_Ok, (getitem_Ok _ _ _ HB0), bind_Ok.
  destruct (contribution_total u0 H0 Hguard) as [c0 Hc0].
  rewrite Hc0, bind_Ok.
  destruct (likelihood_loop A B u H0 Hbuf c0 (T - 1) Hguard)
    as (H' & cs & Hrun & HlenH' & Hlencs & HH0' & _ & Hrec); [lia..|done|].
  exists H', c0, cs. split; [done|]. split; [lia|]. split; [simpl; lia|].
  split; [done|]. split.
  - intros t Ht. destruct (Hrec t) as (a & b & c' & d & ? & ? & ? & _); [lia|].
    by exists a, b.
  - intros t Ht. destruct (decide (t = 0)) as [->|Hne].
    + by exists u0, H0, c0.
    + destruct (Hrec t) as (a & b & ut & c & ? & ? & ? & ? & Hcs & ?); [lia|].
      exists ut, (estimation_update A B H0 a b), c.
      split; [done|]. split; [done|]. split; [|done].
      destruct t as [|t]; [done|]. simpl in Hcs.
      by rewrite Nat.sub_0_r in Hcs.
Qed.
End estimation.

Section simulation.
Context {F : Type} `{!Scalar F, !Lapack F, !Random F}.

Lemma simulate_step_inv A B C e t (u u' : list (list F)) H H' :
  1 ≤ t →
  simulate_step A B C e t (u, H) = Ok (u', H') →
  t < length H ∧ t < length u ∧
  ∃ ut1 Ht1 L et,
    u !! (t - 1) = Some ut1 ∧ H !! (t - 1) = Some Ht1 ∧
    linalg_cholesky (simulation_update A B C ut1 Ht1) = Ok L ∧
    e !! t = Some et ∧
    H' = <[t := simulation_update A B C ut1 Ht1]> H ∧
    u' = <[t := mjoin (dot L (transpose [et]))]> u.
Proof.
  intros Ht Hstep. unfold simulate_step, iadd in Hstep.
  apply bind_Ok_inv in Hstep as (H1 & [HtH ->]%setitem_Ok_inv & Hstep).
  apply bind_Ok_inv in Hstep as (ut1 & Hut1%getitem_Ok_inv & Hstep).
  apply bind_Ok_inv in Hstep as (H2 & Hset & Hstep).
  apply bind_Ok_inv in Hset as (X1 & HX1%getitem_Ok_inv & [_ ->]%setitem_Ok_inv).
  rewrite list_lookup_insert_eq in HX1 by done. injection HX1 as <-.
  rewrite list_insert_insert_eq in Hstep.
  apply bind_Ok_inv in Hstep as (Ht1 & HHt1%getitem_Ok_inv & Hstep).
  rewrite list_lookup_insert_ne in HHt1 by lia.
  apply bind_Ok_inv in Hstep as (H3 & Hset & Hstep).
  apply bind_Ok_inv in Hset as (X2 & HX2%getitem_Ok_inv & [_ ->]%setitem_Ok_inv).
  rewrite list_lookup_insert_eq in HX2 by done. injection HX2 as <-.
  rewrite list_insert_insert_eq in Hstep.
  apply bind_Ok_inv in Hstep as (Hcur & HHcur%getitem_Ok_inv & Hstep).
  rewrite list_lookup_insert_eq in HHcur by done. injection HHcur as <-.
  apply bind_Ok_inv in Hstep as (L & HL & Hstep).
  apply bind_Ok_inv in Hstep as (et & Het%getitem_Ok_inv & Hstep).
  apply bind_Ok_inv in Hstep as (u2 & [Htu ->]%setitem_Ok_inv & Hstep).
  injection Hstep as <- <-.
  split; [done|]. split; [done|]. by exists ut1, Ht1, L, et.
Qed.

Lemma simulated_at_insert A B C e (u : list (list F)) H t k x X :
  t < k → simulated_at A B C e u H t →
  simulated_at A B C e (<[k := x]> u) (<[k := X]> H) t.
Proof.
  intros Htk (ut1 & Ht1 & L & et & ? & ? & ? & ? & ? & ?).
  exists ut1, Ht1, L, et. rewrite !list_lookup_insert_ne by lia. done.
Qed.

Lemma simulate_loop_inv A B C e k (u0 u : list (list F)) H0 H :
  for_each (seq 1 k) (simulate_step A B C e) (u0, H0) = Ok (u, H) →
  length u = length u0 ∧ length H = length H0 ∧
  (k = 0 ∨ k < length H0 ∧ k < length u0) ∧
  (∀ t, t = 0 ∨ k < t → u !! t = u0 !! t ∧ H !! t = H0 !! t) ∧
  (∀ t, 1 ≤ t ≤ k → simulated_at A B C e u H t).
Proof.
  revert u H. induction k as [|k IH]; intros u H Hrun.
  - injection Hrun as <- <-. repeat split; try done; [by left | lia].
  - rewrite seq_S, for_each_app in Hrun.
    apply bind_Ok_inv in Hrun as ([u1 H1] & Hrun & Hstep).
    destruct (IH _ _ Hrun) as (Hlu & HlH & _ & Hkeep & Hrec).
    cbn [for_each] in Hstep.
    apply bind_Ok_inv in Hstep as ([u2 H2] & Hstep & Hret).
    injection Hret as <- <-.
    apply simulate_step_inv in Hstep
      as (HtH & Htu & ut1 & Ht1 & L & et & Hut1 & HHt1 & HL & Het & -> & ->);
      [|lia].
    rewrite Nat.add_1_l in *. rewrite Nat.sub_1_r in *. cbn [Nat.pred] in *.
    rewrite !length_insert.
    split; [done|]. split; [done|]. split; [right; lia|]. split.
    + intros t Ht. rewrite !list_lookup_insert_ne by lia. apply Hkeep. lia.
    + intros t Ht. destruct (decide (t = S k)) as [->|Hne].
      * exists ut1, Ht1, L, et. rewrite Nat.sub_1_r. cbn [Nat.pred].
        rewrite !list_lookup_insert_ne by lia.
        rewrite !list_lookup_insert_eq by done. done.
      * apply simulated_at_insert; [lia|]. apply Hrec. lia.
Qed.

Lemma lookup_zeros_0 T n : 1 ≤ T → zeros (F:=F) T n !! 0 = Some (zeros1 n).
Proof. intros HT. unfold zeros. by apply lookup_replicate_2. Qed.

Lemma simulate_path_inv T n fuel A B C e (u : list (list F)) H :
  1 ≤ T →
  simulate_path T n fuel A B C e = Ok (u, H) →
  length u = T ∧ length H = T ∧
  u !! 0 = Some (zeros1 n) ∧
  (∃ H0, stationary_H fuel A B C = Ok H0 ∧ H !! 0 = Some H0) ∧
  (∀ t, 1 ≤ t < T → simulated_at A B C e u H t).
Proof.
  intros HT Hrun. unfold simulate_path in Hrun.
  apply bind_Ok_inv in Hrun as (H0 & HH0 & Hrun).
  apply bind_Ok_inv in Hrun as (Hbuf & [Hlt ->]%setitem_Ok_inv & Hrun).
  apply simulate_loop_inv in Hrun as (Hlu & HlH & _ & Hkeep & Hrec).
  rewrite length_insert in HlH. unfold np_empty in *.
  rewrite length_replicate in *. unfold zeros in Hlu.
  rewrite length_replicate in Hlu.
  destruct (Hkeep 0) as [Hu0 HH0']; [by left|].
  rewrite list_lookup_insert_eq in HH0' by (by rewrite length_replicate).
  split; [done|]. split; [done|]. split.
  { by rewrite Hu0, lookup_zeros_0. }
  split; [by exists H0|]. intros t Ht. apply Hrec. lia.
Qed.
End simulation.

Section simulation_bekk.
Context {F : Type} `{!Scalar F, !Lapack F, !Random F}.

Lemma simulate_bekk_step_inv (param : BEKKParams F) error i
    (innov innov' : list (list F)) hvar hvar' :
  1 ≤ i →
  simulate_bekk_step param (dot (c_mat param) (transpose (c_mat param)))
                     error i (innov, hvar) = Ok (innov', hvar') →
  i < length hvar ∧ i < length innov ∧
  ∃ r h1 L ei,
    innov !! (i - 1) = Some r ∧ hvar !! (i - 1) = Some h1 ∧
    linalg_cholesky
      (simulation_update (a_mat param) (b_mat param) (c_mat param) r h1) = Ok L ∧
    error !! i = Some ei ∧
    hvar' = <[i := simulation_update (a_mat param) (b_mat param) (c_mat param) r h1]> hvar ∧
    innov' = <[i := mjoin (dot L (transpose [ei]))]> innov.
Proof.
  intros Hi Hstep. unfold simulate_bekk_step in Hstep.
  apply bind_Ok_inv in Hstep as (r & Hr%getitem_Ok_inv & Hstep).
  apply bind_Ok_inv in Hstep as (h1 & Hh1%getitem_Ok_inv & Hstep).
  apply bind_Ok_inv in Hstep as (hv & [Hlt ->]%setitem_Ok_inv & Hstep).
  apply bind_Ok_inv in Hstep as (hi & Hhi%getitem_Ok_inv & Hstep).
  rewrite list_lookup_insert_eq in Hhi by done. injection Hhi as <-.
  apply bind_Ok_inv in Hstep as (L & HL & Hstep).
  apply bind_Ok_inv in Hstep as (ei & Hei%getitem_Ok_inv & Hstep).
  apply bind_Ok_inv in Hstep as (inn & [Hlti ->]%setitem_Ok_inv & Hstep).
  injection Hstep as <- <-.
  split; [done|]. split; [done|]. by exists r, h1, L, ei.
Qed.

Lemma simulate_bekk_loop_inv (param : BEKKParams F) error k
    (innov0 innov : list (list F)) hvar0 hvar :
  for_each (seq 1 k)
    (simulate_bekk_step param (dot (c_mat param) (transpose (c_mat param))) error)
    (innov0, hvar0) = Ok (innov, hvar) →
  length innov = length innov0 ∧ length hvar = length hvar0 ∧
  (∀ t, t = 0 ∨ k < t → innov !! t = innov0 !! t ∧ hvar !! t = hvar0 !! t) ∧
  (∀ t, 1 ≤ t ≤ k →
     simulated_at (a_mat param) (b_mat param) (c_mat param) error innov hvar t).
Proof.
  revert innov hvar. induction k as [|k IH]; intros innov hvar Hrun.
  - injection Hrun as <- <-. repeat split; try done. lia.
  - rewrite seq_S, for_each_app in Hrun.
    apply bind_Ok_inv in Hrun as ([u1 H1] & Hrun & Hstep).
    destruct (IH _ _ Hrun) as (Hlu & HlH & Hkeep & Hrec).
    cbn [for_each] in Hstep.
    apply bind_Ok_inv in Hstep as ([u2 H2] & Hstep & Hret).
    injection Hret as <- <-.
    apply simulate_bekk_step_inv in Hstep
      as (HtH & Htu & ut1 & Ht1 & L & et & Hut1 & HHt1 & HL & Het & -> & ->);
      [|lia].
    rewrite Nat.add_1_l in *. rewrite Nat.sub_1_r in *. cbn [Nat.pred] in *.
    rewrite !length_insert.
    split; [done|]. split; [done|]. split.
    + intros t Ht. rewrite !list_lookup_insert_ne by lia. apply Hkeep. lia.
    + intros t Ht. destruct (decide (t = S k)) as [->|Hne].
      * exists ut1, Ht1, L, et. rewrite Nat.sub_1_r. cbn [Nat.pred].
        rewrite !list_lookup_insert_ne by lia.
        rewrite !list_lookup_insert_eq by done. done.
      * apply simulated_at_insert; [lia|]. apply Hrec. lia.
Qed.

Lemma simulate_bekk_path_inv (param : BEKKParams F) nobs nstocks error
    (innov : list (list F)) hvar :
  simulate_bekk_path param nobs nstocks error = Ok (innov, hvar) →
  1 ≤ nobs ∧ length innov = nobs ∧ length hvar = nobs ∧
  innov !! 0 = Some (zeros1 nstocks) ∧
  (∃ h0, unconditional_var param = Ok h0 ∧ hvar !! 0 = Some h0) ∧
  (∀ t, 1 ≤ t < nobs →
     simulated_at (a_mat param) (b_mat param) (c_mat param)
                  (standardize error) innov hvar t).
Proof.
  intros Hrun. unfold simulate_bekk_path in Hrun.
  apply bind_Ok_inv in Hrun as (h0 & Hh0 & Hrun).
  apply bind_Ok_inv in Hrun as (Hbuf & [Hlt ->]%setitem_Ok_inv & Hrun).
  apply simulate_bekk_loop_inv in Hrun as (Hlu & HlH & Hkeep & Hrec).
  rewrite length_insert in HlH. unfold np_empty in *.
  rewrite length_replicate in *. unfold zeros in Hlu.
  rewrite length_replicate in Hlu.
  destruct (Hkeep 0) as [Hu0 HH0']; [by left|].
  rewrite list_lookup_insert_eq in HH0' by (by rewrite length_replicate).
  split; [lia|]. split; [done|]. split; [done|]. split.
  { rewrite Hu0. apply lookup_zeros_0. lia. }
  split; [by exists h0|]. intros t Ht. apply Hrec. lia.
Qed.

Lemma draw_error_unknown distr nobs nstocks degf (lam : F) g :
  distr ≠ "normal"%string → distr ≠ "student"%string → distr ≠ "skewt"%string →
  draw_error distr nobs nstocks degf lam g = (Raise ValueError, g).
Proof.
  intros H1 H2 H3. unfold draw_error.
  apply String.eqb_neq in H1 as ->.
  apply String.eqb_neq in H2 as ->.
  by apply String.eqb_neq in H3 as ->.
Qed.
End simulation_bekk.

Section shape_facts.
Context {F : Type} `{!Scalar F}.
Implicit Types (M N : list (list F)) (x y : list F).

Lemma ncols_wf' r c M : wf_mat r c M → 1 ≤ r ∨ c = 0 → ncols M = c.
Proof.
  intros [Hr Hc] Hrc. unfold ncols. destruct M as [|row M]; simpl in *.
  - destruct Hrc; [lia | done].
  - by inversion Hc.
Qed.

Lemma fmap_rows_lookup {B} `{!Inhabited B} (f : list F → B) M i :
  i < length M → (f <$> M) !!! i = f (M !!! i).
Proof. apply list_lookup_total_fmap. Qed.

Lemma fmap_scalars_lookup {B} `{!Inhabited B} (f : F → B) x i :
  i < length x → (f <$> x) !!! i = f (x !!! i).
Proof. apply list_lookup_total_fmap. Qed.

Lemma fmap_seq_lookup {B} `{!Inhabited B} (f : nat → B) n i :
  i < n → (f <$> seq 0 n) !!! i = f i.
Proof.
  intros Hi. rewrite (list_lookup_total_fmap f (seq 0 n) i)
    by (by rewrite length_seq).
  by rewrite lookup_total_seq_lt.
Qed.

Lemma length_column j M : length (column j M) = length M.
Proof. unfold column. apply length_fmap. Qed.

Lemma column_lookup j M i :
  i < length M → column j M !!! i = (M !!! i) !!! j.
Proof. intros Hi. unfold column. by rewrite fmap_rows_lookup. Qed.

Lemma wf_grid r c (f : nat → nat → F) :
  wf_mat r c ((λ i, (λ j, f i j) <$> seq 0 c) <$> seq 0 r).
Proof.
  split; [by rewrite length_fmap, length_seq|].
  apply Forall_fmap, Forall_forall. intros i _. simpl.
  by rewrite length_fmap, length_seq.
Qed.

Lemma grid_entry r c (f : nat → nat → F) i j :
  i < r → j < c →
  (((λ i, (λ j, f i j) <$> seq 0 c) <$> seq 0 r) !!! i) !!! j = f i j.
Proof.
  intros Hi Hj. by rewrite !fmap_seq_lookup.
Qed.

Lemma wf_transpose r c M : wf_mat r c M → 1 ≤ r ∨ c = 0 → wf_mat c r (transpose M).
Proof.
  intros HM Hrc. unfold transpose. rewrite (ncols_wf' r c) by done.
  destruct HM as [Hr _]. split; [by rewrite length_fmap, length_seq|].
  apply Forall_fmap, Forall_forall. intros j _. simpl.
  by rewrite length_column.
Qed.

Lemma transpose_entry r c M i j :
  wf_mat r c M → i < r → j < c →
  (transpose M !!! j) !!! i = (M !!! i) !!! j.
Proof.
  intros HM Hi Hj. unfold transpose.
  rewrite (ncols_wf' r c) by (done || lia). destruct HM as [Hr _].
  rewrite fmap_seq_lookup by done.
  apply column_lookup. lia.
Qed.

Lemma wf_dot r c M N : length M = r → ncols N = c → wf_mat r c (dot M N).
Proof.
  intros Hr Hc. unfold dot. split; [by rewrite length_fmap|].
  apply Forall_fmap, Forall_forall. intros row _. simpl.
  by rewrite length_fmap, length_seq.
Qed.

Lemma dot_entry M N i j :
  i < length M → j < ncols N →
  (dot M N !!! i) !!! j = vdot (M !!! i) (column j N).
Proof.
  intros Hi Hj. unfold dot.
  rewrite fmap_rows_lookup by done.
  by rewrite fmap_seq_lookup.
Qed.

Lemma zip_with_indexed (f : F → F → F) x y k :
  length x = k → length y = k →
  zip_with f x y = (λ l, f (x !!! l) (y !!! l)) <$> seq 0 k.
Proof.
  intros Hx Hy. apply (list_eq_same_length _ _ k).
  - by rewrite length_fmap, length_seq.
  - rewrite length_zip_with. lia.
  - intros i a b Hi Ha Hb.
    rewrite list_lookup_fmap, lookup_seq_lt in Hb by done. simpl in Hb.
    apply list_lookup_total_correct in Ha.
    rewrite (lookup_total_zip_with f x y i) in Ha by lia. congruence.
Qed.

Lemma vdot_indexed x y k :
  length x = k → length y = k →
  vdot x y = fsum ((λ l, fmul (x !!! l) (y !!! l)) <$> seq 0 k).
Proof. intros Hx Hy. unfold vdot. by rewrite (zip_with_indexed _ x y k). Qed.

Lemma wf_zip_with (f : F → F → F) r c M N :
  wf_mat r c M → wf_mat r c N → wf_mat r c (zip_with (zip_with f) M N).
Proof.
  intros [HMr HMc] [HNr HNc]. split; [rewrite length_zip_with; lia|].
  apply Forall_lookup. intros i row Hrow.
  apply lookup_zip_with_Some in Hrow as (a & b & -> & Ha & Hb).
  rewrite length_zip_with.
  rewrite (Forall_lookup_1 _ _ _ _ HMc Ha), (Forall_lookup_1 _ _ _ _ HNc Hb).
  lia.
Qed.

Lemma zip_with_entry (f : F → F → F) r c M N i j :
  wf_mat r c M → wf_mat r c N → i < r → j < c →
  (zip_with (zip_with f) M N !!! i) !!! j = f ((M !!! i) !!! j) ((N !!! i) !!! j).
Proof.
  intros HM HN Hi Hj.
  pose proof (wf_mat_row r c M i HM Hi). pose proof (wf_mat_row r c N i HN Hi).
  destruct HM as [HMr _], HN as [HNr _].
  rewrite (lookup_total_zip_with (zip_with f) M N i) by lia.
  by rewrite (lookup_total_zip_with f (M !!! i) (N !!! i) j) by lia.
Qed.

Lemma wf_madd r c M N : wf_mat r c M → wf_mat r c N → wf_mat r c (madd M N).
Proof. apply wf_zip_with. Qed.
Lemma wf_msub r c M N : wf_mat r c M → wf_mat r c N → wf_mat r c (msub M N).
Proof. apply wf_zip_with. Qed.

Lemma wf_mdiv r c M d : wf_mat r c M → wf_mat r c (mdiv M d).
Proof.
  intros [Hr Hc]. unfold mdiv. split; [by rewrite length_fmap|].
  apply Forall_fmap. eapply Forall_impl; [exact Hc|].
  intros row Hrow. simpl. by rewrite length_fmap.
Qed.

Lemma mdiv_entry r c M d i j :
  wf_mat r c M → i < r → j < c →
  (mdiv M d !!! i) !!! j = fdiv ((M !!! i) !!! j) d.
Proof.
  intros HM Hi Hj. pose proof (wf_mat_row r c M i HM Hi).
  destruct HM as [Hr _]. unfold mdiv.
  rewrite fmap_rows_lookup by lia.
  by rewrite fmap_scalars_lookup by lia.
Qed.

Lemma wf_outer x y : wf_mat (length x) (length y) (outer x y).
Proof.
  unfold outer. split; [by rewrite length_fmap|].
  apply Forall_fmap, Forall_forall. intros a _. simpl. by rewrite length_fmap.
Qed.

Lemma outer_entry x y i j :
  i < length x → j < length y →
  (outer x y !!! i) !!! j = fmul (x !!! i) (y !!! j).
Proof.
  intros Hi Hj. unfold outer. rewrite fmap_scalars_lookup by done.
  by rewrite fmap_scalars_lookup.
Qed.

Lemma wf_estimate_H0 T n (u : list (list F)) :
  wf_mat T n u → 1 ≤ T → wf_mat n n (estimate_H0 u).
Proof.
  intros Hu HT. unfold estimate_H0. apply wf_mdiv, wf_dot.
  - by destruct (wf_transpose T n u Hu) as [? _]; [left|].
  - apply (ncols_wf' T n); [done | by left].
Qed.

Lemma wf_row_lookup r c M i row : wf_mat r c M → M !! i = Some row → length row = c.
Proof. intros [_ Hc] Hi. by apply (Forall_lookup_1 _ _ _ _ Hc Hi). Qed.

Lemma wf_eye n : wf_mat n n (eye (F:=F) n).
Proof. apply wf_grid. Qed.

Lemma wf_gram n M : wf_mat n n M → wf_mat n n (dot M (transpose M)).
Proof.
  intros HM. assert (Hn : 1 ≤ n ∨ n = 0) by lia.
  apply wf_dot; [apply HM|].
  apply (ncols_wf' n n); [by apply wf_transpose | done].
Qed.

Lemma wf_sandwich n M N :
  wf_mat n n M → wf_mat n n N → wf_mat n n (dot (dot M N) (transpose M)).
Proof.
  intros HM HN. assert (Hn : 1 ≤ n ∨ n = 0) by lia.
  apply wf_dot.
  - unfold dot. rewrite length_fmap. apply HM.
  - apply (ncols_wf' n n); [by apply wf_transpose | done].
Qed.

Lemma wf_stationary_next n (A B C H : list (list F)) :
  wf_mat n n A → wf_mat n n B → wf_mat n n C → wf_mat n n H →
  wf_mat n n (stationary_next A B C H).
Proof.
  intros HA HB HC HH. unfold stationary_next.
  repeat first [apply wf_madd | apply wf_sandwich | apply wf_gram | done].
Qed.

(** Every iterate of the loop of [stationary_H] is n×n. *)
Lemma wf_stationary_iterate n (A B C : list (list F)) k :
  wf_mat n n A → wf_mat n n B → wf_mat n n C →
  wf_mat n n (stationary_iterate A B C k).
Proof.
  intros HA HB HC. unfold stationary_iterate, nrows. rewrite (proj1 HA).
  induction k as [|k IH]; [apply wf_eye|].
  cbn [Nat.iter]. by apply wf_stationary_next.
Qed.

Lemma transpose_zeros r c :
  1 ≤ r ∨ c = 0 → transpose (zeros (F:=F) r c) = zeros c r.
Proof.
  intros Hrc. apply (mat_ext c r).
  - apply wf_transpose; [apply wf_zeros | done].
  - apply wf_zeros.
  - intros i j Hi Hj.
    rewrite (transpose_entry r c) by (done || apply wf_zeros).
    by rewrite !zeros_entry.
Qed.

Lemma ncols_zeros r c : 1 ≤ r ∨ c = 0 → ncols (zeros (F:=F) r c) = c.
Proof. apply ncols_wf', wf_zeros. Qed.
End shape_facts.

(** ** Scalar models with a commutative product *)

Section commutative_product.
Context {F : Type} `{!Scalar F}.
Hypothesis fmul_comm : ∀ x y : F, fmul x y = fmul y x.

Lemma vdot_sym (x y : list F) : vdot x y = vdot y x.
Proof using fmul_comm.
  unfold vdot. f_equal. revert y.
  induction x as [|a x IH]; intros [|b y]; simpl; try done.
  by rewrite IH, fmul_comm.
Qed.

(** Entries (i, j) and (j, i) of [u'u / T] are the same sum of the same
    products. *)
Lemma estimate_H0_entries_sym T n (u : list (list F)) i j :
  wf_mat T n u → 1 ≤ T → i < n → j < n →
  (estimate_H0 u !!! i) !!! j = (estimate_H0 u !!! j) !!! i.
Proof using fmul_comm.
  intros Hu HT Hi Hj. unfold estimate_H0.
  assert (HTn : 1 ≤ T ∨ n = 0) by lia.
  pose proof (wf_transpose T n u Hu HTn) as [Hlt _].
  pose proof (ncols_wf' T n u Hu HTn) as Hnc.
  assert (Hwf : wf_mat n n (dot (transpose u) u)) by (by apply wf_dot).
  rewrite !(mdiv_entry n n) by done. f_equal.
  rewrite !dot_entry by lia.
  unfold transpose. rewrite Hnc, !fmap_seq_lookup by done.
  apply vdot_sym.
Qed.
End commutative_product.

Section real_arithmetic.
Implicit Types (M N A B : list (list R)) (x y : list R).
Local Open Scope R_scope.

Lemma fsum_app x y : fsum (x ++ y) = fsum x + fsum y.
Proof.
  unfold fsum. rsimp. induction x as [|a x IH]; simpl; [lra|]. rewrite IH. lra.
Qed.

Lemma rsum_0 f : rsum f 0 = 0.
Proof. reflexivity. Qed.

Lemma rsum_S f n : rsum f (S n) = rsum f n + f n.
Proof.
  unfold rsum. rewrite seq_S, fmap_app, fsum_app. unfold fsum. rsimp. simpl. lra.
Qed.

Lemma rsum_ext f g n : (∀ k, (k < n)%nat → f k = g k) → rsum f n = rsum g n.
Proof.
  intros Hfg. unfold rsum. f_equal. apply list_fmap_ext.
  intros i k Hk. apply lookup_seq in Hk as [-> ?]. apply Hfg. lia.
Qed.

Lemma rsum_zero n : rsum (λ _, 0) n = 0.
Proof. induction n as [|n IH]; [done|]. rewrite rsum_S, IH. lra. Qed.

Lemma rsum_plus f g n : rsum (λ k, f k + g k) n = rsum f n + rsum g n.
Proof.
  induction n as [|n IH]; [rewrite !rsum_0; lra|]. rewrite !rsum_S, IH. lra.
Qed.

Lemma rsum_mul_r f c n : rsum f n * c = rsum (λ k, f k * c) n.
Proof.
  induction n as [|n IH]; [rewrite !rsum_0; lra|]. rewrite !rsum_S, <- IH. lra.
Qed.

Lemma rsum_swap (g : nat → nat → R) n m :
  rsum (λ k, rsum (λ l, g k l) m) n = rsum (λ l, rsum (λ k, g k l) n) m.
Proof.
  induction n as [|n IH].
  - rewrite rsum_0. symmetry. rewrite <- (rsum_zero m). by apply rsum_ext.
  - rewrite rsum_S, IH, <- rsum_plus. apply rsum_ext. intros l _.
    by rewrite rsum_S.
Qed.

Lemma vdot_rsum x y k :
  length x = k → length y = k → vdot x y = rsum (λ l, x !!! l * y !!! l) k.
Proof. intros Hx Hy. by rewrite (vdot_indexed x y k). Qed.

Lemma vdot_comm x y : vdot x y = vdot y x.
Proof.
  unfold vdot, fsum. rsimp. revert y.
  induction x as [|a x IH]; intros [|b y]; simpl; try done. rewrite IH. lra.
Qed.

Lemma vdot_zeros_l k y : vdot (zeros1 k) y = 0.
Proof.
  unfold vdot, fsum, zeros1. rsimp. revert y.
  induction k as [|k IH]; intros [|b y]; simpl; try done.
  rewrite IH. lra.
Qed.

Lemma dot_zeros_l r k N : dot (zeros r k) N = zeros r (ncols N).
Proof.
  assert (Hrow : (λ j, vdot (zeros1 k) (column j N)) <$> seq 0 (ncols N)
                 = zeros1 (ncols N)).
  { unfold zeros1 at 2.
    rewrite (const_fmap (λ j, vdot (zeros1 k) (column j N)) _ fzero), length_seq;
      [done|]. intros j x _. apply vdot_zeros_l. }
  unfold dot, zeros. induction r as [|r IH]; [done|].
  cbn [replicate fmap list_fmap]. f_equal; [exact Hrow | exact IH].
Qed.

Lemma madd_zeros_r r c M : wf_mat r c M → madd M (zeros r c) = M.
Proof.
  intros HM. apply (mat_ext r c); [by apply wf_madd, wf_zeros | done |].
  intros i j Hi Hj. unfold madd.
  rewrite (zip_with_entry _ r c) by (done || apply wf_zeros).
  rewrite zeros_entry. rsimp. lra.
Qed.

Lemma ncols_transpose_zeros n : ncols (transpose (zeros (F:=R) n n)) = n.
Proof.
  destruct n as [|n]; [done|].
  apply (ncols_wf' (S n) (S n)); [|left; lia].
  apply wf_transpose; [apply wf_zeros | left; lia].
Qed.

(** With [A = B = 0] the update returns [H0]. *)
Lemma estimation_update_zero n (H0 : list (list R)) uprev Hprev :
  wf_mat n n H0 →
  estimation_update (zeros n n) (zeros n n) H0 uprev Hprev = H0.
Proof.
  intros HH0. unfold estimation_update.
  rewrite !dot_zeros_l, ncols_transpose_zeros.
  by rewrite !(madd_zeros_r n n H0).
Qed.

Lemma symmetric_entries n M :
  wf_mat n n M →
  symmetric M ↔ ∀ i j, (i < n)%nat → (j < n)%nat → (M !!! i) !!! j = (M !!! j) !!! i.
Proof.
  intros HM. assert (Hn : (1 ≤ n ∨ n = 0)%nat) by lia. split.
  - intros Hsym i j Hi Hj. rewrite <- Hsym at 1.
    by apply (transpose_entry n n).
  - intros Hent. apply (mat_ext n n); [by apply wf_transpose | done |].
    intros i j Hi Hj. rewrite (transpose_entry n n) by done. by apply Hent.
Qed.

Lemma sandwich_entry n A M i j :
  wf_mat n n A → wf_mat n n M → (i < n)%nat → (j < n)%nat →
  (dot (dot A M) (transpose A) !!! i) !!! j =
    rsum (λ k, rsum (λ l, (A !!! i) !!! l * (M !!! l) !!! k) n * (A !!! j) !!! k) n.
Proof.
  intros HA HM Hi Hj. assert (Hn : (1 ≤ n ∨ n = 0)%nat) by lia.
  pose proof (wf_transpose n n A HA Hn) as HAt.
  pose proof (wf_dot n n A M (proj1 HA) (ncols_wf' n n M HM Hn)) as HAM.
  rewrite dot_entry;
    [| by rewrite (proj1 HAM) | by rewrite (ncols_wf' n n (transpose A))].
  rewrite (vdot_rsum _ _ n);
    [| by apply (wf_mat_row n n) | by rewrite length_column, (proj1 HAt)].
  apply rsum_ext. intros k Hk.
  rewrite column_lookup by (by rewrite (proj1 HAt)).
  rewrite (transpose_entry n n) by done. f_equal.
  rewrite dot_entry; [| by rewrite (proj1 HA) | by rewrite (ncols_wf' n n M)].
  rewrite (vdot_rsum _ _ n);
    [| by apply (wf_mat_row n n) | by rewrite length_column, (proj1 HM)].
  apply rsum_ext. intros l Hl.
  by rewrite column_lookup by (by rewrite (proj1 HM)).
Qed.

Lemma sandwich_symmetric n A M :
  wf_mat n n A → wf_mat n n M → symmetric M →
  symmetric (dot (dot A M) (transpose A)).
Proof.
  intros HA HM Hsym. apply (symmetric_entries n); [by apply wf_sandwich|].
  intros i j Hi Hj. rewrite !(sandwich_entry n) by done.
  rewrite (symmetric_entries n M HM) in Hsym.
  transitivity
    (rsum (λ k, rsum (λ l, (A !!! i) !!! l * (M !!! l) !!! k * (A !!! j) !!! k) n) n).
  { apply rsum_ext. intros k _. apply rsum_mul_r. }
  rewrite rsum_swap. apply rsum_ext. intros l Hl.
  rewrite rsum_mul_r. apply rsum_ext. intros k Hk.
  rewrite (Hsym l k) by done. lra.
Qed.

Lemma madd_symmetric n M N :
  wf_mat n n M → wf_mat n n N → symmetric M → symmetric N → symmetric (madd M N).
Proof.
  intros HM HN HsM HsN. apply (symmetric_entries n); [by apply wf_madd|].
  rewrite (symmetric_entries n) in HsM, HsN by done.
  intros i j Hi Hj. unfold madd. rewrite !(zip_with_entry _ n n) by done.
  by rewrite (HsM i j), (HsN i j).
Qed.

Lemma msub_symmetric n M N :
  wf_mat n n M → wf_mat n n N → symmetric M → symmetric N → symmetric (msub M N).
Proof.
  intros HM HN HsM HsN. apply (symmetric_entries n); [by apply wf_msub|].
  rewrite (symmetric_entries n) in HsM, HsN by done.
  intros i j Hi Hj. unfold msub. rewrite !(zip_with_entry _ n n) by done.
  by rewrite (HsM i j), (HsN i j).
Qed.

Lemma outer_symmetric x : symmetric (outer x x).
Proof.
  apply (symmetric_entries (length x)); [apply wf_outer|].
  intros i j Hi Hj. rewrite !outer_entry by done. rsimp. lra.
Qed.

Lemma estimate_H0_symmetric T n (u : list (list R)) :
  wf_mat T n u → (1 ≤ T)%nat → symmetric (estimate_H0 u).
Proof.
  intros Hu HT. apply (symmetric_entries n); [by apply (wf_estimate_H0 T)|].
  intros i j Hi Hj. unfold estimate_H0.
  assert (HTn : (1 ≤ T ∨ n = 0)%nat) by lia.
  pose proof (wf_transpose T n u Hu HTn) as [Hlt _].
  pose proof (ncols_wf' T n u Hu HTn) as Hnc.
  assert (Hwf : wf_mat n n (dot (transpose u) u)) by (by apply wf_dot).
  rewrite !(mdiv_entry n n) by done. f_equal.
  rewrite !dot_entry by lia.
  unfold transpose. rewrite Hnc, !fmap_seq_lookup by done.
  apply vdot_comm.
Qed.

Lemma estimation_update_wf n A B H0 uprev Hprev :
  wf_mat n n A → wf_mat n n B → wf_mat n n H0 → length uprev = n →
  wf_mat n n Hprev → wf_mat n n (estimation_update A B H0 uprev Hprev).
Proof.
  intros HA HB HH0 Hu HHp. unfold estimation_update.
  assert (wf_mat n n (outer uprev uprev)) by (rewrite <- Hu; apply wf_outer).
  repeat first [apply wf_madd | apply wf_sandwich | apply wf_msub | done].
Qed.

Lemma estimation_update_symmetric n A B H0 uprev Hprev :
  wf_mat n n A → wf_mat n n B → wf_mat n n H0 → length uprev = n →
  wf_mat n n Hprev → symmetric H0 → symmetric Hprev →
  symmetric (estimation_update A B H0 uprev Hprev).
Proof.
  intros HA HB HH0 Hu HHp HsH0 HsHp. unfold estimation_update.
  assert (wf_mat n n (outer uprev uprev)) by (rewrite <- Hu; apply wf_outer).
  pose proof (outer_symmetric uprev).
  repeat first
    [ apply (madd_symmetric n) | apply (sandwich_symmetric n)
    | apply (msub_symmetric n) | apply wf_madd | apply wf_sandwich
    | apply wf_msub | done ].
Qed.
End real_arithmetic.

Section real_path.
Context `{!Lapack R, !Libm R}.
Local Open Scope R_scope.

Lemma decoded_wf (theta : list R) n A B :
  convert_theta_to_ab theta n = Ok (A, B) → wf_mat n n A ∧ wf_mat n n B.
Proof.
  intros Hab. destruct (decide (length theta < 2 * n ^ 2)%nat) as [Hlt|Hge].
  { by rewrite convert_theta_to_ab_Raise in Hab. }
  rewrite convert_theta_to_ab_Ok in Hab by lia. injection Hab as <- <-.
  pose proof (Nat.pow_2_r n).
  split; apply wf_chunks; rewrite length_slice; lia.
Qed.

Lemma path_wf_symmetric (u : list (list R)) T n A B
    (H : list (list (list R))) :
  wf_mat T n u → (1 ≤ T)%nat → wf_mat n n A → wf_mat n n B →
  H !! 0%nat = Some (estimate_H0 u) →
  (∀ t, (1 ≤ t < T)%nat → ∃ ut1 Ht1,
      u !! (t - 1)%nat = Some ut1 ∧ H !! (t - 1)%nat = Some Ht1 ∧
      H !! t = Some (estimation_update A B (estimate_H0 u) ut1 Ht1)) →
  ∀ t, (t < T)%nat → ∃ Ht, H !! t = Some Ht ∧ wf_mat n n Ht ∧ symmetric Ht.
Proof.
  intros Hu HT HA HB HH0 Hrec t. induction t as [|t IH]; intros Ht.
  - exists (estimate_H0 u). split; [done|].
    split; [by apply (wf_estimate_H0 T) | by apply (estimate_H0_symmetric T n)].
  - destruct IH as (Ht1 & HHt1 & Hwf1 & Hsym1); [lia|].
    destruct (Hrec (S t)) as (ut1 & Ht1' & Hut1 & HHt1' & HHt); [lia|].
    rewrite Nat.sub_1_r in *. cbn [Nat.pred] in *.
    rewrite HHt1 in HHt1'. injection HHt1' as <-.
    pose proof (wf_row_lookup _ _ _ _ _ Hu Hut1) as Hlen.
    eexists. split; [exact HHt|]. split.
    + apply estimation_update_wf; try done. by apply (wf_estimate_H0 T).
    + apply (estimation_update_symmetric n); try done.
      * by apply (wf_estimate_H0 T).
      * by apply (estimate_H0_symmetric T n).
Qed.

Lemma path_constant (u : list (list R)) T n (H : list (list (list R))) :
  wf_mat T n u → (1 ≤ T)%nat →
  H !! 0%nat = Some (estimate_H0 u) →
  (∀ t, (1 ≤ t < T)%nat → ∃ ut1 Ht1,
      u !! (t - 1)%nat = Some ut1 ∧ H !! (t - 1)%nat = Some Ht1 ∧
      H !! t = Some (estimation_update (zeros n n) (zeros n n)
                                       (estimate_H0 u) ut1 Ht1)) →
  ∀ t, (t < T)%nat → H !! t = Some (estimate_H0 u).
Proof.
  intros Hu HT HH0 Hrec t Ht. destruct t as [|t]; [done|].
  destruct (Hrec (S t)) as (ut1 & Ht1 & _ & _ & HHt); [lia|].
  rewrite HHt. f_equal. apply estimation_update_zero.
  by apply (wf_estimate_H0 T).
Qed.
End real_path.

Section real_library.
Local Open Scope R_scope.

Lemma fltb_R_true (a b : R) : a < b → fltb a b = true.
Proof. intros Hab. rsimp. by destruct (Rlt_dec a b). Qed.
Lemma fltb_R_false (a b : R) : b <= a → fltb a b = false.
Proof. intros Hab. rsimp. destruct (Rlt_dec a b); [lra | done]. Qed.
Lemma fleb_R_true (a b : R) : a <= b → fleb a b = true.
Proof. intros Hab. rsimp. by destruct (Rle_dec a b). Qed.
Lemma fleb_R_false (a b : R) : b < a → fleb a b = false.
Proof. intros Hab. rsimp. destruct (Rle_dec a b); [lra | done]. Qed.
Lemma feqb_R_true (a b : R) : a = b → feqb a b = true.
Proof. intros Hab. rsimp. by destruct (Req_dec_T a b). Qed.
Lemma feqb_R_false (a b : R) : a ≠ b → feqb a b = false.
Proof. intros Hab. rsimp. by destruct (Req_dec_T a b). Qed.

Lemma isclose_R_0 (a : R) : isclose a 0 = (if Rle_dec (Rabs a) 1e-8 then true else false).
Proof.
  unfold isclose. rsimp. rewrite Rminus_0_r, Rabs_R0.
  destruct (Rle_dec (Rabs a) 1e-8), (Rle_dec (Rabs a) (1e-8 + 1e-5 * 0));
    try done; lra.
Qed.

Lemma existsb_never {A} (f : A → bool) (l : list A) :
  (∀ x, f x = false) → existsb f l = false.
Proof. intros Hf. induction l as [|a l IH]; simpl; [done|]. by rewrite Hf, IH. Qed.

Lemma any_isinf_R (M : list (list R)) : any_isinf M = false.
Proof.
  unfold any_isinf. apply existsb_never. intros row. by apply existsb_never.
Qed.

(** Over the reals the guard of [contribution] is a test on the
    determinant alone. *)
Lemma bad_R `{!Lapack R} (H : list (list R)) :
  bad H = true ↔ linalg_det H <= 1e-8 ∨ 1e20 < linalg_det H.
Proof.
  unfold bad. rewrite any_isinf_R, isclose_R_0. cbn [orb].
  rewrite !orb_true_iff. rsimp.
  destruct (Rle_dec (Rabs (linalg_det H)) 1e-8) as [Hc|Hc],
           (Rlt_dec 1e20 (linalg_det H)) as [Hb|Hb],
           (Rlt_dec (linalg_det H) 0) as [Hn|Hn];
    unfold Rabs in Hc; destruct (Rcase_abs (linalg_det H)); split;
    intros; try (left; lra); try (right; lra); try tauto;
    try (exfalso; lra); intuition (try discriminate; try lra).
Qed.

Lemma R_inv_succeeds_off_singular :
  inv_succeeds_off_singular R (Lapack0 := R_lapack).
Proof.
  intros H Hclose. cbn [linalg_inv linalg_det R_lapack reference_lapack] in *.
  unfold inv_adjugate. destruct (feqb (det_cofactor H) fzero) eqn:E; [|eauto].
  exfalso. rsimp. destruct (Req_dec_T (det_cofactor H) 0) as [Hz|]; [|done].
  rewrite isclose_R_0, Hz, Rabs_R0 in Hclose.
  destruct (Rle_dec 0 1e-8); [done | lra].
Qed.
End real_library.

(** ** The [while] loop of [stationary_H] *)

Section stationary.
Context {F : Type} `{!Scalar F}.

(** When the loop exits, at least 1000 passes have been made and the
    test [norm > 1e-3] is false; each pass consumes one unit of fuel. *)
Lemma stationary_loop_exit fuel (A B C : list (list F)) i nrm Hold Hnew
    i' nrm' H' :
  stationary_loop fuel A B C i nrm Hold Hnew = Ok (i', nrm', H') →
  1000 ≤ i' ∧ fltb lit_1em3 nrm' = false ∧ i ≤ i' ∧ i' ≤ i + fuel.
Proof.
  revert i nrm Hold Hnew. induction fuel as [|fuel IH]; intros i nrm Hold Hnew.
  - cbn [stationary_loop].
    destruct (fltb lit_1em3 nrm || (i <? 1000)) eqn:Hcond; [discriminate|].
    apply orb_false_iff in Hcond as [Hn Hi%Nat.ltb_ge].
    destruct Hnew; [|discriminate]. intros [= <- <- <-].
    split; [lia|]. split; [done | lia].
  - cbn [stationary_loop].
    destruct (fltb lit_1em3 nrm || (i <? 1000)) eqn:Hcond.
    + intros Hrun. apply IH in Hrun as (? & ? & ? & ?).
      split; [lia|]. split; [done | lia].
    + apply orb_false_iff in Hcond as [Hn Hi%Nat.ltb_ge].
      destruct Hnew; [|discriminate]. intros [= <- <- <-].
      split; [lia|]. split; [done | lia].
Qed.

(** Fewer than 1000 passes never suffice, whatever the iterates. *)
Lemma stationary_loop_floor fuel (A B C : list (list F)) i nrm Hold Hnew :
  i + fuel < 1000 → stationary_loop fuel A B C i nrm Hold Hnew = OutOfFuel.
Proof.
  revert i nrm Hold Hnew. induction fuel as [|fuel IH];
    intros i nrm Hold Hnew Hlt; cbn [stationary_loop].
  - assert (Hi : (i <? 1000) = true) by (apply Nat.ltb_lt; lia).
    by rewrite Hi, orb_true_r.
  - assert (Hi : (i <? 1000) = true) by (apply Nat.ltb_lt; lia).
    rewrite Hi, orb_true_r. apply IH. lia.
Qed.

Lemma stationary_run_exit fuel (A B C : list (list F)) i nrm H :
  stationary_run fuel A B C = Ok (i, nrm, H) →
  1000 ≤ i ∧ i ≤ fuel ∧ fltb lit_1em3 nrm = false.
Proof.
  unfold stationary_run. intros (? & ? & ? & ?)%stationary_loop_exit.
  split; [lia|]. split; [lia | done].
Qed.

Lemma stationary_run_floor fuel (A B C : list (list F)) :
  fuel < 1000 → stationary_run fuel A B C = OutOfFuel.
Proof. intros Hlt. unfold stationary_run. by apply stationary_loop_floor. Qed.
End stationary.

(** Over the reals the exit test means that the last change of the
    iterate has Frobenius norm at most 1e-3. *)
Lemma stationary_run_exit_real fuel (A B C : list (list R)) i nrm H :
  stationary_run fuel A B C = Ok (i, nrm, H) →
  1000 ≤ i ∧ (nrm <= 1e-3)%R.
Proof.
  intros (Hi & _ & Hn)%stationary_run_exit. split; [done|].
  rsimp. destruct (Rlt_dec 1e-3 nrm); [done | lra].
Qed.

Section stationary_termination.
Context {F : Type} `{!Scalar F}.

Lemma stationary_loop_stops (A B C : list (list F)) m i :
  1 ≤ i →
  (∃ j, i ≤ j ≤ i + m ∧ 1000 ≤ j ∧
        fltb lit_1em3 (stationary_change A B C (j - 1)) = false) →
  ∃ j, i ≤ j ∧
    stationary_loop m A B C i (stationary_change A B C (i - 1))
                    (stationary_iterate A B C i)
                    (Some (stationary_iterate A B C i))
      = Ok (j, stationary_change A B C (j - 1), stationary_iterate A B C j).
Proof.
  revert i. induction m as [|m IH]; intros i Hi (j & Hj & Hj1000 & Htest).
  - assert (j = i) as -> by lia. exists i. split; [done|].
    cbn [stationary_loop]. rewrite Htest.
    assert (Hlt : (i <? 1000) = false) by (apply Nat.ltb_ge; lia).
    by rewrite Hlt.
  - cbn [stationary_loop].
    destruct (fltb lit_1em3 (stationary_change A B C (i - 1)) || (i <? 1000))
      eqn:Hcond.
    + assert (j ≠ i) as Hne.
      { intros ->. rewrite Htest in Hcond.
        assert (Hlt : (i <? 1000) = false) by (apply Nat.ltb_ge; lia).
        by rewrite Hlt in Hcond. }
      destruct (IH (S i)) as (j' & Hj' & Hrun); [lia | |].
      { exists j. split; [lia|]. done. }
      exists j'. split; [lia|].
      rewrite Nat.sub_1_r in Hrun. cbn [Nat.pred] in Hrun.
      unfold stationary_change at 1 in Hrun.
      cbn [stationary_iterate Nat.iter] in Hrun.
      replace (S (i - 1)) with i by lia.
      exact Hrun.
    + by exists i.
Qed.

(** The loop terminates as soon as some pass [j ≥ 1000] leaves a change
    that fails the test [norm > 1e-3]. *)
Lemma stationary_run_stops (A B C : list (list F)) j :
  1000 ≤ j → fltb lit_1em3 (stationary_change A B C (j - 1)) = false →
  ∃ i, stationary_run j A B C
       = Ok (i, stationary_change A B C (i - 1), stationary_iterate A B C i).
Proof.
  intros Hj Htest. unfold stationary_run.
  destruct j as [|m]; [lia|]. cbn [stationary_loop].
  assert (H0 : (0 <? 1000) = true) by done. rewrite H0, orb_true_r.
  destruct (stationary_loop_stops A B C m 1) as (i & Hi & Hrun); [lia | |].
  { exists (S m). split; [lia|]. done. }
  exists i. exact Hrun.
Qed.
End stationary_termination.

(** ** The loop of [stationary_H], read backwards from its result *)

Section stationary_inversion.
Context {F : Type} `{!Scalar F}.

Lemma stationary_loop_bound fuel (A B C : list (list F)) i nrm Hold H e :
  stationary_loop fuel A B C i nrm Hold (Some H) ≠ Raise e.
Proof.
  revert i nrm Hold H. induction fuel as [|fuel IH]; intros i nrm Hold H;
    cbn [stationary_loop];
    destruct (fltb lit_1em3 nrm || (i <? 1000)); done || apply IH.
Qed.

(** [Hnew] is bound when the loop ends: the first test passes on
    [i = 0 < 1000]. *)
Lemma stationary_run_never_raises fuel (A B C : list (list F)) e :
  stationary_run fuel A B C ≠ Raise e.
Proof.
  unfold stationary_run. destruct fuel as [|fuel]; cbn [stationary_loop];
    assert (H0 : (0 <? 1000) = true) by done; rewrite H0, orb_true_r;
    [done | apply stationary_loop_bound].
Qed.

Lemma stationary_loop_inv (A B C : list (list F)) m i j nrm H :
  1 ≤ i →
  stationary_loop m A B C i (stationary_change A B C (i - 1))
                  (stationary_iterate A B C i)
                  (Some (stationary_iterate A B C i)) = Ok (j, nrm, H) →
  i ≤ j ≤ i + m ∧ 1000 ≤ j ∧ nrm = stationary_change A B C (j - 1) ∧
  H = stationary_iterate A B C j ∧
  fltb lit_1em3 (stationary_change A B C (j - 1)) = false ∧
  ∀ k, i ≤ k < j →
       fltb lit_1em3 (stationary_change A B C (k - 1)) || (k <? 1000) = true.
Proof.
  revert i. induction m as [|m IH]; intros i Hi; cbn [stationary_loop];
    destruct (fltb lit_1em3 (stationary_change A B C (i - 1)) || (i <? 1000))
      eqn:Hcond; try done.
  - intros [= <- <- <-]. apply orb_false_iff in Hcond as [Hn Hlt%Nat.ltb_ge].
    repeat split; try done; lia.
  - intros Hrun.
    assert (Hstate : stationary_loop m A B C (S i)
              (stationary_change A B C (S i - 1))
              (stationary_iterate A B C (S i))
              (Some (stationary_iterate A B C (S i))) = Ok (j, nrm, H)).
    { replace (S i - 1) with (S (i - 1)) by lia.
      unfold stationary_change at 1. cbn [stationary_iterate Nat.iter].
      replace (S (i - 1)) with i by lia. exact Hrun. }
    apply IH in Hstate as (Hj & H1000 & -> & -> & Htest & Hbefore); [|lia].
    split; [lia|]. repeat (split; [done|]).
    intros k Hk. destruct (decide (k = i)) as [->|Hne]; [done|].
    apply Hbefore. lia.
  - intros [= <- <- <-]. apply orb_false_iff in Hcond as [Hn Hlt%Nat.ltb_ge].
    repeat split; try done; lia.
Qed.

(** A result of the loop is the first iterate, from pass 1000 on, whose
    change fails the test [norm > 1e-3]. *)
Lemma stationary_run_inv (A B C : list (list F)) fuel j nrm H :
  stationary_run fuel A B C = Ok (j, nrm, H) →
  1000 ≤ j ≤ fuel ∧ nrm = stationary_change A B C (j - 1) ∧
  H = stationary_iterate A B C j ∧
  fltb lit_1em3 (stationary_change A B C (j - 1)) = false ∧
  ∀ k, 1000 ≤ k < j → fltb lit_1em3 (stationary_change A B C (k - 1)) = true.
Proof.
  unfold stationary_run. destruct fuel as [|fuel]; cbn [stationary_loop].
  { assert (H0 : (0 <? 1000) = true) by done. by rewrite H0, orb_true_r. }
  assert (H0 : (0 <? 1000) = true) by done. rewrite H0, orb_true_r.
  intros Hrun.
  apply (stationary_loop_inv A B C fuel 1) in Hrun
    as (Hj & H1000 & -> & -> & Htest & Hbefore); [|lia].
  split; [lia|]. repeat (split; [done|]).
  intros k Hk. specialize (Hbefore k ltac:(lia)).
  apply orb_true_iff in Hbefore as [?|Hlt%Nat.ltb_lt]; [done | lia].
Qed.

Lemma stationary_H_inv (A B C : list (list F)) fuel H :
  stationary_H fuel A B C = Ok H →
  ∃ i nrm, stationary_run fuel A B C = Ok (i, nrm, H).
Proof.
  unfold stationary_H. intros Hrun.
  apply bind_Ok_inv in Hrun as ([[i nrm] H'] & Hrun & [= <-]). eauto.
Qed.
End stationary_inversion.

(** ** Iterates of [stationary_H] that repeat *)

Section stationary_cycles.
Context {F : Type} `{!Scalar F}.
Implicit Types (A B C : list (list F)).

Lemma stationary_iterate_S A B C k :
  stationary_iterate A B C (S k)
  = stationary_next A B C (stationary_iterate A B C k).
Proof. reflexivity. Qed.

Lemma stationary_iterate_periodic A B C k p :
  stationary_iterate A B C (k + p) = stationary_iterate A B C k →
  ∀ m, stationary_iterate A B C (k + m + p) = stationary_iterate A B C (k + m).
Proof.
  intros Hp m. induction m as [|m IH]; [by rewrite Nat.add_0_r|].
  replace (k + S m + p) with (S (k + m + p)) by lia.
  replace (k + S m) with (S (k + m)) by lia.
  by rewrite !stationary_iterate_S, IH.
Qed.

Lemma stationary_change_periodic A B C k p :
  stationary_iterate A B C (k + p) = stationary_iterate A B C k →
  ∀ m, stationary_change A B C (k + m + p) = stationary_change A B C (k + m).
Proof.
  intros Hp m. unfold stationary_change.
  replace (S (k + m + p)) with (k + S m + p) by lia.
  rewrite !(stationary_iterate_periodic A B C k p Hp).
  by replace (k + S m) with (S (k + m)) by lia.
Qed.

(** Once the iterates repeat with period [p] and every change within
    the period passes the test [norm > 1e-3], the test passes forever. *)
Lemma stationary_cycle_changes A B C k p :
  1 ≤ p →
  stationary_iterate A B C (k + p) = stationary_iterate A B C k →
  (∀ m, m < p → fltb lit_1em3 (stationary_change A B C (k + m)) = true) →
  ∀ j, k ≤ j → fltb lit_1em3 (stationary_change A B C j) = true.
Proof.
  intros Hp Hcyc Hbig j Hj.
  replace j with (k + (j - k)) by lia. generalize (j - k). clear j Hj.
  intros m. induction (lt_wf m) as [m _ IH].
  destruct (decide (m < p)) as [Hlt|Hge]; [by apply Hbig|].
  replace (k + m) with (k + (m - p) + p) by lia.
  rewrite (stationary_change_periodic A B C k p Hcyc). apply IH. lia.
Qed.

(** Such a cycle entered before pass 1000 keeps the loop running for
    ever. *)
Lemma stationary_cycle_never_exits A B C k p :
  1 ≤ p → k ≤ 999 →
  stationary_iterate A B C (k + p) = stationary_iterate A B C k →
  (∀ m, m < p → fltb lit_1em3 (stationary_change A B C (k + m)) = true) →
  ∀ fuel, stationary_H fuel A B C = OutOfFuel.
Proof.
  intros Hp Hk Hcyc Hbig fuel. unfold stationary_H.
  destruct (stationary_run fuel A B C) as [[[i nrm] H]|e|] eqn:Hrun; [| |done].
  - apply stationary_run_inv in Hrun as (Hi & _ & _ & Htest & _).
    rewrite (stationary_cycle_changes A B C k p Hp Hcyc Hbig) in Htest by lia.
    discriminate.
  - by apply stationary_run_never_raises in Hrun.
Qed.
End stationary_cycles.

Section scalar_case.
Local Open Scope R_scope.

Lemma stationary_next_1x1 (a b c h : R) :
  stationary_next [[a]] [[b]] [[c]] [[h]] = [[c * c + (a * a + b * b) * h]].
Proof. cbn. do 2 f_equal. lra. Qed.

Lemma stationary_iterate_1x1 (a b c : R) k :
  stationary_iterate [[a]] [[b]] [[c]] k = [[scalar_iterate a b c k]].
Proof.
  induction k as [|k IH]; [done|].
  change (stationary_iterate [[a]] [[b]] [[c]] (S k))
    with (stationary_next [[a]] [[b]] [[c]]
            (stationary_iterate [[a]] [[b]] [[c]] k)).
  rewrite IH. apply stationary_next_1x1.
Qed.

Lemma norm_1x1 (x : R) : norm [[x]] = Rabs x.
Proof.
  unfold norm. cbn. rewrite Rplus_0_r.
  fold (Rsqr x). apply sqrt_Rsqr_abs.
Qed.

Lemma scalar_iterate_diff (a b c : R) k :
  scalar_iterate a b c (S k) - scalar_iterate a b c k
  = (a * a + b * b) ^ k * (scalar_iterate a b c 1 - scalar_iterate a b c 0).
Proof.
  induction k as [|k IH]; [cbn; lra|].
  change (scalar_iterate a b c (S (S k)))
    with (c * c + (a * a + b * b) * scalar_iterate a b c (S k)).
  change (scalar_iterate a b c (S k))
    with (c * c + (a * a + b * b) * scalar_iterate a b c k) at 2.
  cbn [pow].
  transitivity ((a * a + b * b)
                * (scalar_iterate a b c (S k) - scalar_iterate a b c k)); [lra|].
  rewrite IH. lra.
Qed.

Lemma stationary_change_1x1 (a b c : R) k :
  stationary_change [[a]] [[b]] [[c]] k
  = Rabs ((a * a + b * b) ^ k) * Rabs (scalar_iterate a b c 1 - scalar_iterate a b c 0).
Proof.
  unfold stationary_change. rewrite !stationary_iterate_1x1.
  change (msub [[scalar_iterate a b c (S k)]] [[scalar_iterate a b c k]])
    with [[scalar_iterate a b c (S k) - scalar_iterate a b c k]].
  by rewrite norm_1x1, scalar_iterate_diff, Rabs_mult.
Qed.

(** For one asset the matrix [A⊗A + B⊗B] is the number [a² + b²], its
    only eigenvalue; below 1 the loop of [stationary_H] terminates. *)
Lemma stationary_H_terminates_1x1 (a b c : R) :
  a * a + b * b < 1 →
  ∃ fuel H, stationary_H fuel [[a]] [[b]] [[c]] = Ok H.
Proof.
  intros Hrho.
  set (d0 := Rabs (scalar_iterate a b c 1 - scalar_iterate a b c 0)).
  assert (Hd0 : 0 <= d0) by apply Rabs_pos.
  assert (Hrho' : Rabs (a * a + b * b) < 1).
  { rewrite Rabs_pos_eq; [done|]. nra. }
  destruct (pow_lt_1_zero _ Hrho' (1e-3 / (d0 + 1))) as [N HN].
  { apply Rdiv_lt_0_compat; lra. }
  set (j := S (Nat.max N 999)).
  destruct (stationary_run_stops [[a]] [[b]] [[c]] j) as (i & Hrun); [lia | |].
  - apply fltb_R_false. unfold j. rewrite Nat.sub_1_r. cbn [Nat.pred].
    rewrite stationary_change_1x1. fold d0.
    specialize (HN (Nat.max N 999) ltac:(lia)).
    assert (Hp : 0 <= Rabs ((a * a + b * b) ^ Nat.max N 999)) by apply Rabs_pos.
    assert (Hq : 1e-3 / (d0 + 1) * (d0 + 1) = 1e-3) by (field; lra).
    rsimp. nra.
  - exists j. eexists. unfold stationary_H. by rewrite Hrun.
Qed.
End scalar_case.

(** ** Concrete runs over the reals *)

Section real_examples.
Local Open Scope R_scope.

Lemma wf_two_zero_rows : wf_mat 2 1 [[0]; [0]].
Proof. split; [done | repeat constructor]. Qed.

Lemma estimate_H0_two_zero_rows : estimate_H0 [[0]; [0]] = [[0]].
Proof. cbn. do 2 f_equal. lra. Qed.

Lemma contribution_zero_matrix (x : list R) : contribution x [[0]] = Ok 1e10.
Proof.
  rewrite contribution_bad; [done|]. apply bad_R. left. cbn -[Z.pow_pos]. lra.
Qed.

Lemma positive_definite_1x1 (h : R) : 0 < h → positive_definite [[h]].
Proof.
  intros Hh x Hlen Hne. destruct x as [|a [|b x]]; try done.
  assert (Ha : a ≠ 0) by (intros ->; by apply Hne).
  assert (0 < a * a) by (destruct (Rtotal_order a 0) as [?|[?|?]]; [nra|done|nra]).
  cbn -[Z.pow_pos]. replace ((a * h + 0) * a + 0) with (h * (a * a)) by lra.
  by apply Rmult_lt_0_compat.
Qed.

Lemma det_minus_identity : linalg_det [[-1; 0]; [0; -1]] = 1.
Proof. cbn -[Z.pow_pos]. lra. Qed.

Lemma inv_minus_identity :
  linalg_inv [[-1; 0]; [0; -1]] = Ok [[-1; 0]; [0; -1]].
Proof.
  pose proof det_minus_identity as Hdet.
  cbn [linalg_inv linalg_det R_lapack reference_lapack] in *.
  unfold inv_adjugate. rewrite Hdet.
  rewrite feqb_R_false by (cbn -[Z.pow_pos]; lra). cbn.
  repeat (f_equal; try lra).
Qed.

End real_examples.

(** ** Doubles *)

(** Adding [nan] gives [nan], whatever the other operand. *)
Lemma float_add_nan_r (x : float) : PrimFloat.add x nan = nan.
Proof.
  rewrite <- (SF2Prim_Prim2SF (PrimFloat.add x nan)), add_spec.
  replace (Prim2SF nan) with S754_nan by reflexivity.
  unfold SF64add, SFadd. by destruct (Prim2SF x) as [| | |[] ? ?].
Qed.

Lemma float_eqb_zero (d : float) :
  PrimFloat.eqb d 0%float = true → d = 0%float ∨ d = (-0)%float.
Proof.
  rewrite FloatAxioms.eqb_spec. intros Heq.
  rewrite <- (SF2Prim_Prim2SF d).
  change (Prim2SF 0) with (S754_zero false) in Heq.
  destruct (Prim2SF d) as [s|s| |s m e]; cbn in Heq.
  - destruct s; [by right | by left].
  - destruct s; discriminate.
  - discriminate.
  - destruct s; discriminate.
Qed.

(** On doubles the adjugate inverse fails only on a zero determinant,
    which [np.isclose] finds close to zero. *)
Lemma float_inv_succeeds_off_singular :
  inv_succeeds_off_singular float (Lapack0 := float_lapack).
Proof.
  intros H Hclose. cbn [linalg_inv linalg_det float_lapack reference_lapack] in *.
  unfold inv_adjugate. destruct (feqb (det_cofactor H) fzero) eqn:E; [|eauto].
  exfalso. apply float_eqb_zero in E as [E|E]; rewrite E in Hclose;
    vm_compute in Hclose; discriminate.
Qed.

(** *** Signed zeros and finite doubles *)

Section doubles.
Implicit Types (x y : float).

Lemma float_regular_finite x : float_regular x = true → float_finite x = true.
Proof. unfold float_regular, float_finite. by destruct (Prim2SF x). Qed.

(** The product of doubles is commutative, bit for bit. *)
Lemma float_mul_comm x y : PrimFloat.mul x y = PrimFloat.mul y x.
Proof.
  rewrite <- (SF2Prim_Prim2SF (PrimFloat.mul x y)),
          <- (SF2Prim_Prim2SF (PrimFloat.mul y x)), !mul_spec.
  f_equal. unfold SF64mul, SFmul.
  destruct (Prim2SF x) as [sx|sx| |sx mx ex], (Prim2SF y) as [sy|sy| |sy my ey];
    try reflexivity; rewrite 1?(xorb_comm sx sy); try reflexivity.
  by rewrite (Pos.mul_comm mx my), (Z.add_comm ex ey).
Qed.

(** Zero times a finite double is a zero of either sign. *)
Lemma float_mul_zero_l x :
  float_finite x = true →
  PrimFloat.mul 0 x = 0%float ∨ PrimFloat.mul 0 x = (-0)%float.
Proof.
  unfold float_finite. intros Hx.
  rewrite <- (SF2Prim_Prim2SF (PrimFloat.mul 0 x)), mul_spec.
  change (Prim2SF 0) with (S754_zero false). unfold SF64mul, SFmul.
  destruct (Prim2SF x) as [[]|[]| |[] ? ?]; try done; cbn; auto.
Qed.

(** Adding [+0] changes nothing but the negative zero. *)
Lemma float_add_zero_r x : float_regular x = true → PrimFloat.add x 0 = x.
Proof.
  unfold float_regular. intros Hx.
  rewrite <- (SF2Prim_Prim2SF (PrimFloat.add x 0)), add_spec.
  change (Prim2SF 0) with (S754_zero false). unfold SF64add, SFadd.
  rewrite <- (SF2Prim_Prim2SF x) at 2.
  by destruct (Prim2SF x) as [[]|[]| |[] ? ?].
Qed.

Lemma float_sub_diag x : float_finite x = true → PrimFloat.sub x x = 0%float.
Proof.
  unfold float_finite. intros Hx.
  rewrite <- (SF2Prim_Prim2SF (PrimFloat.sub x x)), sub_spec.
  unfold SF64sub, SFsub.
  destruct (Prim2SF x) as [[]|[]| |s m e]; try done.
  by rewrite Z.sub_diag.
Qed.
End doubles.

(** *** Arrays of doubles: products with the zero matrix *)

Section double_arrays.
Implicit Types (M N H C : list (list float)) (x y : list float).

Lemma all_entries_lookup (p : float → bool) r c M i j :
  wf_mat r c M → all_entries p M = true → i < r → j < c →
  p ((M !!! i) !!! j) = true.
Proof.
  intros HM Hall Hi Hj. pose proof (wf_mat_row r c M i HM Hi) as Hrow.
  destruct HM as [Hr _]. unfold all_entries in Hall.
  rewrite forallb_forall in Hall.
  assert (Hin : In (M !!! i) M).
  { apply list_elem_of_In, list_elem_of_lookup_total_2. lia. }
  specialize (Hall _ Hin). rewrite forallb_forall in Hall. apply Hall.
  apply list_elem_of_In, list_elem_of_lookup_total_2. lia.
Qed.

Lemma all_entries_regular_finite M :
  all_entries float_regular M = true → all_entries float_finite M = true.
Proof.
  unfold all_entries. rewrite !forallb_forall. intros HM row Hrow.
  specialize (HM row Hrow). rewrite forallb_forall in *.
  intros z Hz. by apply float_regular_finite, HM.
Qed.

Lemma all_entries_zeros r c : all_entries float_finite (zeros r c) = true.
Proof.
  unfold all_entries, zeros, zeros1. apply forallb_forall.
  intros row ->%list_elem_of_In%elem_of_replicate_inv.
  apply forallb_forall. by intros z ->%list_elem_of_In%elem_of_replicate_inv.
Qed.

Lemma all_entries_eye n : all_entries float_finite (eye n) = true.
Proof.
  unfold all_entries, eye. apply forallb_forall.
  intros row Hrow%list_elem_of_In.
  apply list_elem_of_fmap in Hrow as (i & -> & _).
  apply forallb_forall. intros z Hz%list_elem_of_In.
  apply list_elem_of_fmap in Hz as (j & -> & _). by destruct (i =? j).
Qed.

(** An index past the end of a row reads the default, which is zero. *)
Lemma float_finite_default x j :
  forallb float_finite x = true → float_finite (x !!! j) = true.
Proof.
  intros Hx. rewrite forallb_forall in Hx.
  destruct (decide (j < length x)) as [Hj|Hj].
  - apply Hx, list_elem_of_In, list_elem_of_lookup_total_2. lia.
  - rewrite list_lookup_total_alt, lookup_ge_None_2 by lia. reflexivity.
Qed.

Lemma float_finite_column j N :
  all_entries float_finite N = true → forallb float_finite (column j N) = true.
Proof.
  unfold all_entries, column. intros HN. rewrite forallb_forall in HN.
  apply forallb_forall. intros z Hz%list_elem_of_In.
  apply list_elem_of_fmap in Hz as (row & -> & Hrow).
  apply float_finite_default, HN. by apply list_elem_of_In.
Qed.

(** Each product with zero is a zero of either sign, and the sum, which
    starts from [+0], is [+0]. *)
Lemma float_vdot_zeros_l k y :
  forallb float_finite y = true → vdot (zeros1 k) y = 0%float.
Proof.
  revert y. induction k as [|k IH]; intros [|b y]; try done.
  intros [Hb Hy]%andb_prop.
  change (vdot (zeros1 (S k)) (b :: y))
    with (PrimFloat.add (PrimFloat.mul 0 b) (vdot (zeros1 k) y)).
  rewrite IH by done. by destruct (float_mul_zero_l b Hb) as [-> | ->].
Qed.

Lemma float_dot_zeros_l r k N :
  all_entries float_finite N = true → dot (zeros r k) N = zeros r (ncols N).
Proof.
  intros HN.
  assert (Hrow : (λ j, vdot (zeros1 k) (column j N)) <$> seq 0 (ncols N)
                 = zeros1 (ncols N)).
  { unfold zeros1 at 2.
    rewrite (const_fmap (λ j, vdot (zeros1 k) (column j N)) _ fzero), length_seq;
      [done|]. intros j x _. by apply float_vdot_zeros_l, float_finite_column. }
  unfold dot, zeros. induction r as [|r IH]; [done|].
  cbn [replicate fmap list_fmap]. f_equal; [exact Hrow | exact IH].
Qed.

Lemma float_madd_zeros_r r c M :
  wf_mat r c M → all_entries float_regular M = true → madd M (zeros r c) = M.
Proof.
  intros HM Hreg. apply (mat_ext r c); [by apply wf_madd, wf_zeros | done |].
  intros i j Hi Hj. unfold madd.
  rewrite (zip_with_entry _ r c) by (done || apply wf_zeros).
  rewrite zeros_entry. apply float_add_zero_r.
  by apply (all_entries_lookup _ r c).
Qed.

Lemma float_msub_diag r c M :
  wf_mat r c M → all_entries float_finite M = true → msub M M = zeros r c.
Proof.
  intros HM Hfin. apply (mat_ext r c); [by apply wf_msub | apply wf_zeros |].
  intros i j Hi Hj. unfold msub.
  rewrite (zip_with_entry _ r c), zeros_entry by done.
  apply float_sub_diag. by apply (all_entries_lookup _ r c).
Qed.

(** With [A = B = 0], [Hprev = H0] and nothing infinite the update of
    [likelihood] returns [H0]. *)
Lemma float_estimation_update_zero n H uprev :
  wf_mat n n H → length uprev = n →
  all_entries float_regular H = true →
  all_entries float_finite (msub (outer uprev uprev) H) = true →
  estimation_update (zeros n n) (zeros n n) H uprev H = H.
Proof.
  intros HH Hlen Hreg Hfin. assert (Hn : 1 ≤ n ∨ n = 0) by lia.
  assert (Ho : wf_mat n n (msub (outer uprev uprev) H)).
  { apply wf_msub; [|done]. rewrite <- Hlen. apply wf_outer. }
  unfold estimation_update.
  rewrite (float_msub_diag n n H) by (done || by apply all_entries_regular_finite).
  rewrite (float_dot_zeros_l n n (msub _ _)) by done.
  rewrite (ncols_wf' n n _ Ho Hn).
  rewrite (float_dot_zeros_l n n (zeros n n)) by apply all_entries_zeros.
  rewrite (ncols_zeros n n Hn), (transpose_zeros n n Hn).
  rewrite (float_dot_zeros_l n n (zeros n n)) by apply all_entries_zeros.
  rewrite (ncols_zeros n n Hn).
  by rewrite !(float_madd_zeros_r n n H).
Qed.

Lemma float_fsum_zeros k : fsum (replicate k 0%float) = 0%float.
Proof.
  unfold fsum. induction k as [|k IH]; [done|].
  cbn [replicate foldr]. by rewrite IH.
Qed.

Lemma float_norm_zeros r c : norm (zeros (F:=float) r c) = 0%float.
Proof.
  unfold norm, zeros, zeros1.
  assert (Hj : mjoin (replicate r (replicate c (fzero : float)))
               = replicate (r * c) (0%float)).
  { induction r as [|r IH]; [done|].
    replace (S r * c) with (c + r * c) by lia.
    rewrite replicate_add, <- IH. reflexivity. }
  rewrite Hj, fmap_replicate.
  change (fmul (0%float) (0%float)) with (0%float).
  by rewrite float_fsum_zeros.
Qed.

(** With [A = B = 0] a pass of [stationary_H] returns the intercept. *)
Lemma float_stationary_next_zero n C H :
  wf_mat n n C → wf_mat n n H → all_entries float_finite H = true →
  all_entries float_regular (dot C (transpose C)) = true →
  stationary_next (zeros n n) (zeros n n) C H = dot C (transpose C).
Proof.
  intros HC HH Hfin Hreg. assert (Hn : 1 ≤ n ∨ n = 0) by lia.
  unfold stationary_next.
  rewrite (float_dot_zeros_l n n H) by done.
  rewrite (ncols_wf' n n H HH Hn), (transpose_zeros n n Hn).
  rewrite (float_dot_zeros_l n n (zeros n n)) by apply all_entries_zeros.
  rewrite (ncols_zeros n n Hn).
  rewrite !(float_madd_zeros_r n n (dot C (transpose C)));
    done || by apply wf_gram.
Qed.

Lemma float_stationary_iterate_zero n C k :
  wf_mat n n C → all_entries float_regular (dot C (transpose C)) = true →
  stationary_iterate (zeros n n) (zeros n n) C (S k) = dot C (transpose C).
Proof.
  intros HC Hreg. induction k as [|k IH].
  - rewrite stationary_iterate_S. apply float_stationary_next_zero; try done.
    + apply (wf_stationary_iterate n _ _ _ 0); done || apply wf_zeros.
    + unfold stationary_iterate, nrows, zeros. rewrite length_replicate.
      apply all_entries_eye.
  - rewrite stationary_iterate_S, IH.
    apply float_stationary_next_zero; try done.
    + by apply wf_gram.
    + by apply all_entries_regular_finite.
Qed.
End double_arrays.

(** * The claims *)

Section claims.
Context {F : Type} `{!Scalar F, !Lapack F, !Libm F, !Random F}.

(** C1, as amended. For every series [u] of shape (T, n) with [T ≥ 1]
    and every [theta] of length at least [2 n²], and provided
    [np.linalg.inv] returns an inverse whenever the determinant is not
    close to zero, [likelihood] raises nothing: it returns the sum, in
    time order, of the [T] per-step contributions, replaced by 1e10 when
    that sum is infinite. Each guarded step adds 1e10 to the sum, so the
    result is not bounded by 1e10. *)
Theorem likelihood_total (theta : list F) (u : list (list F)) T n :
  inv_succeeds_off_singular F → wf_mat T n u → 1 ≤ T →
  2 * n ^ 2 ≤ length theta →
  ∃ H c0 cs,
    likelihood_body theta u = Ok (H, fold_left fadd cs c0) ∧
    length H = T ∧ length (c0 :: cs) = T ∧
    (∀ t, t < T → ∃ ut Ht c,
        u !! t = Some ut ∧ H !! t = Some Ht ∧ (c0 :: cs) !! t = Some c ∧
        contribution ut Ht = Ok c) ∧
    likelihood theta u =
      Ok (let f := fold_left fadd cs c0 in
          if fisinf f then lit_1e10 else f).
Proof.
  intros Hguard Hu HT Hlen.
  destruct (likelihood_body_Ok theta u T n _ _ Hguard Hu HT
              (convert_theta_to_ab_Ok theta n Hlen))
    as (H & c0 & cs & Hrun & HlH & Hlc & _ & _ & Hcon).
  exists H, c0, cs. repeat (split; [done|]).
  unfold likelihood. by rewrite Hrun.
Qed.

(** C2. In [likelihood], for [u] of shape (T, n) with [T ≥ 1] and
    [A], [B] decoded from [theta], the buffer [H] ends with
    [H[0] = u'u / T] and, for every [t] in [1 .. T-1],
    [H[t] = H[0] + A (u[t-1] u[t-1]' − H[0]) A' + B (H[t-1] − H[0]) B']. *)
Theorem likelihood_covariance_path (theta : list F) (u : list (list F))
    T n A B :
  inv_succeeds_off_singular F → wf_mat T n u → 1 ≤ T →
  convert_theta_to_ab theta n = Ok (A, B) →
  ∃ H f H0,
    likelihood_body theta u = Ok (H, f) ∧ length H = T ∧
    H0 = mdiv (dot (transpose u) u) (of_nat T) ∧
    H !! 0 = Some H0 ∧
    ∀ t, 1 ≤ t < T → ∃ ut1 Ht1,
        u !! (t - 1) = Some ut1 ∧ H !! (t - 1) = Some Ht1 ∧
        H !! t =
          Some (madd (madd H0 (dot (dot A (msub (outer ut1 ut1) H0))
                                   (transpose A)))
                     (dot (dot B (msub Ht1 H0)) (transpose B))).
Proof.
  intros Hguard Hu HT Hab.
  destruct (likelihood_body_Ok theta u T n A B Hguard Hu HT Hab)
    as (H & c0 & cs & Hrun & HlH & _ & HH0 & Hrec & _).
  exists H, (fold_left fadd cs c0), (estimate_H0 u).
  split; [done|]. split; [done|]. split; [|by split].
  unfold estimate_H0, nrows. by destruct Hu as [-> _].
Qed.

(** C3. For every [n], all n×n arrays [A], [B] and every lower-triangular
    n×n array [C], encoding succeeds, gives a vector of length
    [2 n² + n (n+1) / 2], and decoding that vector returns exactly
    [(A, B, C)]. *)
Theorem codec_round_trip n (A B C : list (list F)) :
  wf_mat n n A → wf_mat n n B → wf_mat n n C → lower_triangular C →
  ∃ theta, convert_abc_to_theta A B C = Ok theta ∧
           length theta = 2 * n ^ 2 + n * (n + 1) / 2 ∧
           convert_theta_to_abc theta n = Ok (A, B, C).
Proof.
  intros HA HB HC Hlow.
  assert (Hidx : ∀ i j, (i, j) ∈ tril_indices n → i < n ∧ j < n).
  { intros i j [??]%elem_of_tril_indices. lia. }
  set (g := λ '(i, j), (C !!! i) !!! j : F).
  exists (mjoin A ++ mjoin B ++ (g <$> tril_indices n)).
  pose proof (length_join_wf _ _ _ HA) as HlA.
  pose proof (length_join_wf _ _ _ HB) as HlB.
  split; [|split].
  - unfold convert_abc_to_theta, nrows. pose proof HC as [HCl _].
    rewrite HCl, (getitem_fancy_Ok n n) by done. reflexivity.
  - rewrite !length_app, length_fmap, HlA, HlB, length_tril_indices_div.
    rewrite Nat.pow_2_r. lia.
  - unfold convert_theta_to_abc, slice. rewrite Nat.pow_2_r.
    replace (n * n - 0) with (n * n) by lia.
    replace (2 * (n * n) - n * n) with (n * n) by lia.
    rewrite drop_0, (take_app_length' (mjoin A)) by done.
    rewrite (reshape_Ok (mjoin A)), (chunks_join n n A), bind_Ok by done.
    rewrite (drop_app_length' (mjoin A) _ (n * n)) by done.
    rewrite (take_app_length' (mjoin B) _ (n * n)) by done.
    rewrite (reshape_Ok (mjoin B)), (chunks_join n n B), bind_Ok by done.
    rewrite app_assoc, drop_app_length' by (rewrite length_app; lia).
    unfold setitem_fancy.
    rewrite broadcast_to_same, bind_Ok by apply length_fmap.
    destruct (scatter_entry n n g (tril_indices n) (zeros n n))
      as [Hwf Hent]; [apply wf_zeros | done |].
    rewrite bind_Ok. do 2 f_equal. apply (mat_ext n n); [done..|].
    intros i j Hi Hj. rewrite Hent.
    destruct (decide ((i, j) ∈ tril_indices n)) as [Hin|Hnin]; [done|].
    rewrite zeros_entry, Hlow; [done|].
    rewrite elem_of_tril_indices in Hnin. lia.
Qed.

(** C4, as amended. [contribution(u, H)] is 1e10 when some entry of [H]
    is infinite, or [det H] is within [np.isclose] of zero, or
    [det H > 1e20], or [det H < 0]; when none of the four tests holds
    (and [np.linalg.inv] honours its contract) it is
    [log (det H) + u' inv(H) u]. The guard tests the determinant, not
    positive definiteness. *)
Theorem contribution_cases (u : list F) (H : list (list F)) :
  inv_succeeds_off_singular F →
  (any_isinf H = true ∨ isclose (linalg_det H) fzero = true ∨
   fltb lit_1e20 (linalg_det H) = true ∨ fltb (linalg_det H) fzero = true →
     contribution u H = Ok lit_1e10) ∧
  (any_isinf H = false → isclose (linalg_det H) fzero = false →
   fltb lit_1e20 (linalg_det H) = false → fltb (linalg_det H) fzero = false →
     ∃ Hinv, linalg_inv H = Ok Hinv ∧
       contribution u H =
         Ok (fadd (np_log (linalg_det H)) (vdot (vec_dot u Hinv) u))).
Proof.
  intros Hguard. split.
  - intros Hb. apply contribution_bad. unfold bad.
    rewrite !orb_true_iff. tauto.
  - intros H1 H2 H3 H4. destruct (Hguard H H2) as [Hinv HHinv].
    exists Hinv. split; [done|]. apply contribution_good; [|done].
    unfold bad. by rewrite H1, H2, H3, H4.
Qed.

(** C5. Whenever [simulate_BEKK] (1000 steps, draws [e]) or
    [simulate_bekk] ([nobs] steps, [e] the standardised draws) returns a
    path, [u[0]] is the zero vector and, for every later [t],
    [H[t] = C C' + A (u[t-1] u[t-1]') A' + B H[t-1] B'] and
    [u[t] = cholesky_lower(H[t]) . e[t]]. *)
Theorem simulation_recursion :
  (∀ fuel (theta : list F) n g u H g',
      simulate_BEKK fuel theta n g = (Ok (u, H), g') →
      ∃ A B C e,
        convert_theta_to_abc theta n = Ok (A, B, C) ∧
        multivariate_normal n 1000 g = (e, g') ∧
        length u = 1000 ∧ length H = 1000 ∧
        u !! 0 = Some (zeros1 n) ∧
        ∀ t, 1 ≤ t < 1000 → ∃ ut1 Ht1 Ht L et,
            u !! (t - 1) = Some ut1 ∧ H !! (t - 1) = Some Ht1 ∧
            Ht = madd (madd (dot C (transpose C))
                            (dot (dot A (outer ut1 ut1)) (transpose A)))
                      (dot (dot B Ht1) (transpose B)) ∧
            H !! t = Some Ht ∧
            linalg_cholesky Ht = Ok L ∧ e !! t = Some et ∧
            u !! t = Some (mjoin (dot L (transpose [et])))) ∧
  (∀ (param : BEKKParams F) nobs distr degf lam g innov hvar g',
      simulate_bekk param nobs distr degf lam g = (Ok (innov, hvar), g') →
      ∃ error,
        draw_error distr nobs (nrows (a_mat param)) degf lam g
          = (Ok error, g') ∧
        length innov = nobs ∧ length hvar = nobs ∧
        innov !! 0 = Some (zeros1 (nrows (a_mat param))) ∧
        ∀ t, 1 ≤ t < nobs → ∃ ut1 Ht1 Ht L et,
            innov !! (t - 1) = Some ut1 ∧ hvar !! (t - 1) = Some Ht1 ∧
            Ht = madd (madd (dot (c_mat param) (transpose (c_mat param)))
                            (dot (dot (a_mat param) (outer ut1 ut1))
                                 (transpose (a_mat param))))
                      (dot (dot (b_mat param) Ht1) (transpose (b_mat param))) ∧
            hvar !! t = Some Ht ∧
            linalg_cholesky Ht = Ok L ∧
            standardize error !! t = Some et ∧
            innov !! t = Some (mjoin (dot L (transpose [et])))).
Proof.
  split.
  - intros fuel theta n g u H g' Hrun. unfold simulate_BEKK in Hrun.
    destruct (convert_theta_to_abc theta n) as [[[A B] C]| |] eqn:Habc;
      [|discriminate..].
    destruct (multivariate_normal n 1000 g) as [e g''] eqn:He.
    injection Hrun as Hrun <-.
    apply simulate_path_inv in Hrun as (Hlu & HlH & Hu0 & _ & Hrec); [|lia].
    exists A, B, C, e. repeat (split; [done|]).
    intros t Ht. destruct (Hrec t Ht) as (ut1 & Ht1 & L & et & ?).
    exists ut1, Ht1, (simulation_update A B C ut1 Ht1), L, et. tauto.
  - intros param nobs distr degf lam g innov hvar g' Hrun.
    unfold simulate_bekk in Hrun.
    destruct (draw_error distr nobs (nrows (a_mat param)) degf lam g)
      as [[error| |] g''] eqn:Hd; [|discriminate..].
    injection Hrun as Hrun <-.
    apply simulate_bekk_path_inv in Hrun as (_ & Hlu & HlH & Hu0 & _ & Hrec).
    exists error. repeat (split; [done|]).
    intros t Ht. destruct (Hrec t Ht) as (ut1 & Ht1 & L & et & ?).
    exists ut1, Ht1,
      (simulation_update (a_mat param) (b_mat param) (c_mat param) ut1 Ht1),
      L, et. tauto.
Qed.

(** C6, as amended. Whatever the matrices and the scalar model,
    [stationary_H] makes at least 1000 passes; when its loop exits, at
    pass count [i], then [i ≥ 1000], the result is the iterate of pass
    [i], the test [norm > 1e-3] is false for the change made by that
    pass and was true at every earlier count from 1000 on; and the loop
    terminates exactly when some pass from the 1000th on leaves a
    change for which the test is false. On doubles the test is false
    for a change of at most 1e-3 and also for a NaN change. *)
Theorem stationary_loop_floor_and_exit (A B C : list (list F)) :
  (∀ fuel, fuel < 1000 → stationary_H fuel A B C = OutOfFuel) ∧
  (∀ fuel i nrm H, stationary_run fuel A B C = Ok (i, nrm, H) →
     1000 ≤ i ≤ fuel ∧ H = stationary_iterate A B C i ∧
     nrm = stationary_change A B C (i - 1) ∧ fltb lit_1em3 nrm = false ∧
     ∀ k, 1000 ≤ k < i →
          fltb lit_1em3 (stationary_change A B C (k - 1)) = true) ∧
  ((∃ fuel H, stationary_H fuel A B C = Ok H) ↔
   ∃ j, 1000 ≤ j ∧ fltb lit_1em3 (stationary_change A B C (j - 1)) = false).
Proof.
  split; [|split].
  - intros fuel Hlt. unfold stationary_H.
    by rewrite stationary_run_floor.
  - intros fuel i nrm H Hrun.
    apply stationary_run_inv in Hrun as (Hi & -> & -> & Htest & Hbefore).
    done.
  - split.
    + intros (fuel & H & (i & nrm & Hrun)%stationary_H_inv).
      apply stationary_run_inv in Hrun as (Hi & _ & _ & Htest & _).
      exists i. split; [lia | done].
    + intros (j & Hj & Htest).
      destruct (stationary_run_stops A B C j Hj Htest) as (i & Hrun).
      exists j. eexists. unfold stationary_H. by rewrite Hrun.
Qed.

(** C7, as amended. [convert_theta_to_abc] raises [ValueError] for every
    [theta] whose length is neither [2 n² + n (n+1) / 2] nor [2 n² + 1]
    (a single trailing value is broadcast to the whole lower triangle),
    and succeeds for those two lengths; [convert_theta_to_ab] raises
    [ValueError] for every [theta] shorter than [2 n²]. The callers
    [simulate_BEKK] and [likelihood] hand the error on, the former with
    the generator state untouched. *)
Theorem shape_errors (theta : list F) (n : nat) :
  (length theta ≠ 2 * n ^ 2 + n * (n + 1) / 2 →
   length theta ≠ 2 * n ^ 2 + 1 →
     convert_theta_to_abc theta n = Raise ValueError ∧
     ∀ fuel g, simulate_BEKK fuel theta n g = (Raise ValueError, g)) ∧
  (length theta = 2 * n ^ 2 + n * (n + 1) / 2 ∨
   length theta = 2 * n ^ 2 + 1 →
     ∃ A B C, convert_theta_to_abc theta n = Ok (A, B, C)) ∧
  (length theta < 2 * n ^ 2 →
     convert_theta_to_ab theta n = Raise ValueError ∧
     ∀ u : list (list F), ncols u = n → likelihood theta u = Raise ValueError).
Proof.
  split; [|split].
  - intros Hk H1. pose proof (convert_theta_to_abc_Raise theta n Hk H1) as Hr.
    split; [done|]. intros fuel g. unfold simulate_BEKK. by rewrite Hr.
  - apply convert_theta_to_abc_Ok.
  - intros Hlt. pose proof (convert_theta_to_ab_Raise theta n Hlt) as Hr.
    split; [done|]. intros u <-. unfold likelihood, likelihood_body.
    by rewrite Hr.
Qed.

(** C10. For every [distr] other than 'normal', 'student' and 'skewt',
    [simulate_bekk] raises [ValueError]; no draw has been made (the
    generator state is unchanged) and no path is returned. *)
Theorem unknown_distribution_raises (param : BEKKParams F) nobs distr degf
    lam g :
  distr ≠ "normal"%string → distr ≠ "student"%string →
  distr ≠ "skewt"%string →
  simulate_bekk param nobs distr degf lam g = (Raise ValueError, g).
Proof.
  intros H1 H2 H3. unfold simulate_bekk.
  by rewrite draw_error_unknown.
Qed.
End claims.

Section double_claims.
Context `{!Lapack float, !Libm float}.

(** C8, as amended. On doubles, when [theta] decodes to [A = 0] and
    [B = 0], every entry of [H[0] = u'u / T] is finite and is not the
    negative zero, and no entry of any [u[t] u[t]' − H[0]] is infinite
    or NaN, the buffer [H] of [likelihood] holds [u'u / T] at every [t]
    in [0 .. T-1]. *)
Theorem zero_parameters_constant_path (theta : list float)
    (u : list (list float)) T n :
  inv_succeeds_off_singular float → wf_mat T n u → 1 ≤ T →
  convert_theta_to_ab theta n = Ok (zeros n n, zeros n n) →
  all_entries float_regular (estimate_H0 u) = true →
  forallb (λ ut, all_entries float_finite
                   (msub (outer ut ut) (estimate_H0 u))) u = true →
  ∃ H f,
    likelihood_body theta u = Ok (H, f) ∧ length H = T ∧
    ∀ t, t < T → H !! t = Some (mdiv (dot (transpose u) u) (of_nat T)).
Proof.
  intros Hguard Hu HT Hab Hreg Hfin.
  destruct (likelihood_body_Ok theta u T n _ _ Hguard Hu HT Hab)
    as (H & c0 & cs & Hrun & HlH & _ & HH0 & Hrec & _).
  exists H, (fold_left fadd cs c0). split; [done|]. split; [done|].
  replace (mdiv (dot (transpose u) u) (of_nat T)) with (estimate_H0 u)
    by (unfold estimate_H0, nrows; by destruct Hu as [-> _]).
  pose proof (wf_estimate_H0 T n u Hu HT) as Hwf.
  rewrite forallb_forall in Hfin.
  intros t. induction t as [|t IH]; intros Ht; [done|].
  destruct (Hrec (S t)) as (ut1 & Ht1 & Hut1 & HHt1 & HHt); [lia|].
  rewrite Nat.sub_1_r in Hut1, HHt1. cbn [Nat.pred] in Hut1, HHt1.
  rewrite IH in HHt1 by lia. injection HHt1 as <-.
  rewrite HHt. f_equal. apply float_estimation_update_zero; try done.
  - by apply (wf_row_lookup _ _ _ _ _ Hu Hut1).
  - apply Hfin, list_elem_of_In. by eapply list_elem_of_lookup_2.
Qed.
End double_claims.

Section symmetry_claim.
Context {F : Type} `{!Scalar F, !Lapack F, !Libm F}.

End symmetry_claim.

(** * Counterexamples to claims as they are stated *)

Section counterexamples.
Local Open Scope R_scope.

(** C1 as stated fails. Over the reals: on two observations that are
    both zero, with [A = B = 0], both steps are guarded and [likelihood]
    returns [1e10 + 1e10], which exceeds 1e10. On doubles, whatever
    [log] returns: for the finite series [[1e200], [1e200]] the path is
    [inf], [nan], the guard lets [nan] through, and [likelihood] returns
    [nan], which [isinf] does not catch. *)
Lemma likelihood_not_bounded_nor_finite :
  (likelihood [0; 0] [[0]; [0]] = Ok (1e10 + 1e10) ∧ 1e10 < 1e10 + 1e10) ∧
  (∀ lg : float → float,
      likelihood (Libm0 := {| np_log := lg |}) [0; 0]%float
                 [[0x1.4e718d7d7625ap+664]; [0x1.4e718d7d7625ap+664]]%float
        = Ok nan).
Proof.
  split; [split; [|lra] |].
  2:{ intros lg. vm_compute. rewrite float_add_nan_r. vm_compute. reflexivity. }
  destruct (likelihood_body_Ok (F := R) [0; 0] [[0]; [0]] 2 1 [[0]] [[0]]
              R_inv_succeeds_off_singular wf_two_zero_rows)
    as (H & c0 & cs & Hrun & HlH & Hlc & HH0 & Hrec & Hcon); [lia | done |].
  pose proof (path_constant [[0]; [0]] 2 1 H wf_two_zero_rows
                (le_S _ _ (le_n 1)) HH0 Hrec) as Hconst.
  assert (Hc : ∀ t c, (t < 2)%nat → (c0 :: cs) !! t = Some c → c = 1e10).
  { intros t c Ht Hl. destruct (Hcon t Ht) as (ut & Ht' & c' & _ & HHt & Hl' & Hc).
    rewrite Hl in Hl'. injection Hl' as <-.
    rewrite (Hconst t Ht), estimate_H0_two_zero_rows in HHt.
    injection HHt as <-. rewrite contribution_zero_matrix in Hc. congruence. }
  destruct cs as [|c1 [|c2 cs]]; simpl in Hlc; try lia.
  rewrite (Hc 0%nat c0), (Hc 1%nat c1) in Hrun by (done || lia).
  unfold likelihood. rewrite Hrun. reflexivity.
Qed.

(** C4 as stated fails in each direction. Over the reals: the
    positive-definite, finite matrix [[1e-9]] with determinant below
    1e20 gets the penalty, and the matrix [-I], which is not positive
    definite, gets [log 1 + u'(-I)u = -1] instead of the penalty. On
    doubles, whatever [log] returns: the matrix [[nan]] has a
    non-finite entry and passes the guard, the contribution being
    [nan]. *)
Lemma contribution_guard_is_not_definiteness :
  (contribution [0] [[1e-9]] = Ok 1e10 ∧
   positive_definite [[1e-9]] ∧ any_isinf [[1e-9]] = false ∧
   linalg_det [[1e-9]] < 1e20) ∧
  (contribution [1; 0] [[-1; 0]; [0; -1]] = Ok (-1) ∧
   ¬ positive_definite [[-1; 0]; [0; -1]] ∧ -1 ≠ 1e10) ∧
  (∀ lg : float → float,
      contribution (Libm0 := {| np_log := lg |}) [1]%float [[nan]]%float
        = Ok nan).
Proof.
  split; [split; [|split; [|split]] | split; [split; [|split] |]].
  - rewrite contribution_bad; [done|]. apply bad_R. left. cbn -[Z.pow_pos]. lra.
  - apply positive_definite_1x1. lra.
  - apply any_isinf_R.
  - cbn -[Z.pow_pos]. lra.
  - assert (Hbad : bad [[-1; 0]; [0; -1]] = false).
    { apply not_true_is_false. rewrite bad_R, det_minus_identity. lra. }
    rewrite (contribution_good _ _ _ Hbad inv_minus_identity).
    rewrite det_minus_identity. cbn. rewrite ln_1. f_equal. lra.
  - intros Hpd. specialize (Hpd [1; 0] eq_refl).
    cbn -[Z.pow_pos] in Hpd. assert ([1; 0] ≠ [0; 0]) as Hne by (intros [=]; lra).
    specialize (Hpd Hne). lra.
  - lra.
  - intros lg. vm_compute. by rewrite float_add_nan_r.
Qed.
End counterexamples.

(** C7 as stated fails: for [n = 2] a vector of length 9, which is not
    [2·4 + 3 = 11], is decoded without error, its last entry filling the
    lower triangle of [C]. *)
Lemma decode_full_broadcasts_single_value :
  convert_theta_to_abc [1; 2; 3; 4; 5; 6; 7; 8; 9]%float 2
    = Ok ([[1; 2]; [3; 4]], [[5; 6]; [7; 8]], [[9; 0]; [9; 9]])%float ∧
  length [1; 2; 3; 4; 5; 6; 7; 8; 9]%float ≠ 2 * 2 ^ 2 + 2 * (2 + 1) / 2.
Proof. split; [vm_compute; reflexivity | vm_compute; lia]. Qed.

Section double_counterexamples.
Local Open Scope float_scope.

(** C6 as stated fails on doubles in two of its parts. The exit: with
    [A = B = 0] and the intercept [[1e200]], whose square overflows, the
    iterates are [inf] and then [nan], and the loop leaves after its
    1000 passes with a change that is [nan], not at most 1e-3.
    Termination: for [cycle_A], [cycle_B], [cycle_C] the absolute row
    sums of [A⊗A + B⊗B] are at most 0.625, so its spectral radius is
    below 1, but the iterates are of size 1e20, where neighbouring
    doubles are 8192 or more apart; from pass 70 on the entry (0, 1)
    alternates between two neighbours, each pass changes the iterate by
    8192, and the loop never ends. *)
Lemma stationary_exit_not_convergence :
  (stationary_run 1000 [[0]] [[0]] [[0x1.4e718d7d7625ap+664]]
     = Ok (1000%nat, nan, [[nan]]) ∧
   fleb nan lit_1em3 = false) ∧
  (forallb (λ row, fleb (fsum (fabs <$> row)) 0.625)
           (madd (kron cycle_A cycle_A) (kron cycle_B cycle_B)) = true ∧
   stationary_iterate cycle_A cycle_B cycle_C 72
     = stationary_iterate cycle_A cycle_B cycle_C 70 ∧
   stationary_change cycle_A cycle_B cycle_C 70 = 8192 ∧
   stationary_change cycle_A cycle_B cycle_C 71 = 8192 ∧
   ∀ fuel, stationary_H fuel cycle_A cycle_B cycle_C = OutOfFuel).
Proof.
  split; [split; vm_compute; reflexivity|].
  split; [vm_compute; reflexivity|].
  assert (Hcyc : stationary_iterate cycle_A cycle_B cycle_C (70 + 2)
                 = stationary_iterate cycle_A cycle_B cycle_C 70)
    by (vm_compute; reflexivity).
  split; [exact Hcyc|].
  split; [vm_compute; reflexivity|]. split; [vm_compute; reflexivity|].
  apply (stationary_cycle_never_exits cycle_A cycle_B cycle_C 70 2);
    [lia | lia | exact Hcyc |].
  intros [|[|m]] Hm; [vm_compute; reflexivity | vm_compute; reflexivity | lia].
Qed.

(** C8 as stated fails on doubles: for the finite series
    [[1e200], [1e200]] and [theta = [0, 0]] (so [A = B = 0]) the
    squares overflow, [H[0] = u'u / T] is [inf], and [H[1]] is
    [inf + 0 * (inf - inf) * 0 = nan]: the path is not constant,
    whatever [log] returns. *)
Lemma zero_parameters_path_not_constant :
  wf_mat 2 1 [[0x1.4e718d7d7625ap+664]; [0x1.4e718d7d7625ap+664]] ∧
  convert_theta_to_ab [0; 0] 1 = Ok (zeros 1 1, zeros 1 1) ∧
  estimate_H0 [[0x1.4e718d7d7625ap+664]; [0x1.4e718d7d7625ap+664]]
    = [[infinity]] ∧
  (∀ lg : float → float, ∃ f,
      likelihood_body (Lapack0 := float_lapack) (Libm0 := {| np_log := lg |})
        [0; 0] [[0x1.4e718d7d7625ap+664]; [0x1.4e718d7d7625ap+664]]
      = Ok ([[[infinity]]; [[nan]]], f)) ∧
  [[nan]] ≠ [[infinity]].
Proof.
  split; [split; [reflexivity | repeat constructor]|].
  split; [reflexivity|]. split; [vm_compute; reflexivity|].
  split; [|discriminate].
  intros lg. eexists. vm_compute. reflexivity.
Qed.

End double_counterexamples.

(** * The theorems at concrete inputs *)

Lemma likelihood_total_witness :
  ∃ v : R, likelihood [1; 2]%R [[1]; [2]; [3]]%R = Ok v.
Proof.
  destruct (likelihood_total (F := R) [1; 2]%R [[1]; [2]; [3]]%R 3 1
              R_inv_succeeds_off_singular)
    as (H & c0 & cs & _ & _ & _ & _ & Hl).
  - split; [reflexivity | repeat constructor].
  - lia.
  - simpl. lia.
  - eexists. exact Hl.
Defined.

Lemma likelihood_covariance_path_witness :
  ∃ H f, likelihood_body [1; 2]%R [[1]; [2]; [3]]%R = Ok (H, f) ∧
         H !! 0 = Some (mdiv (dot (transpose [[1]; [2]; [3]]%R)
                                  [[1]; [2]; [3]]%R) (INR 3)).
Proof.
  destruct (likelihood_covariance_path (F := R) [1; 2]%R [[1]; [2]; [3]]%R 3 1
              [[1%R]] [[2%R]] R_inv_succeeds_off_singular)
    as (H & f & H0 & Hrun & _ & -> & HH0 & _).
  - split; [reflexivity | repeat constructor].
  - lia.
  - reflexivity.
  - exists H, f. split; [exact Hrun | exact HH0].
Defined.

Lemma codec_round_trip_witness :
  ∃ theta,
    convert_abc_to_theta [[1; 2]; [3; 4]]%float [[5; 6]; [7; 8]]%float
                         [[9; 0]; [10; 11]]%float = Ok theta ∧
    length theta = 2 * 2 ^ 2 + 2 * (2 + 1) / 2 ∧
    convert_theta_to_abc theta 2
      = Ok ([[1; 2]; [3; 4]], [[5; 6]; [7; 8]], [[9; 0]; [10; 11]])%float.
Proof.
  apply (codec_round_trip (F := float) 2).
  - split; [reflexivity | repeat constructor].
  - split; [reflexivity | repeat constructor].
  - split; [reflexivity | repeat constructor].
  - intros [|[|i]] [|[|j]] Hij; try lia; reflexivity.
Defined.

Lemma contribution_cases_witness :
  contribution [0%R] [[0%R]] = Ok lit_1e10 ∧
  ∃ Hinv, linalg_inv [[1%R]] = Ok Hinv ∧
          contribution [1%R] [[1%R]]
            = Ok (fadd (np_log (linalg_det [[1%R]])) (vdot (vec_dot [1%R] Hinv) [1%R])).
Proof.
  split.
  - apply (proj1 (contribution_cases (F := R) [0%R] [[0%R]]
                    R_inv_succeeds_off_singular)).
    right; left. rewrite isclose_R_0. cbn -[Z.pow_pos].
    destruct (Rle_dec _ _) as [|Hn]; [reflexivity|].
    exfalso. apply Hn. rewrite Rabs_pos_eq; lra.
  - apply (proj2 (contribution_cases (F := R) [1%R] [[1%R]]
                    R_inv_succeeds_off_singular)).
    + apply any_isinf_R.
    + rewrite isclose_R_0. cbn -[Z.pow_pos].
      destruct (Rle_dec _ _) as [Hle|]; [|reflexivity].
      exfalso. rewrite Rabs_pos_eq in Hle; lra.
    + apply fltb_R_false. cbn -[Z.pow_pos]. lra.
    + apply fltb_R_false. cbn -[Z.pow_pos]. lra.
Defined.

Lemma simulation_recursion_witness :
  (∃ u H g',
      simulate_BEKK (Random0 := tape_random float) 1000 [0.5; 0.5; 1]%float 1
                    (replicate 1000 [1%float]) = (Ok (u, H), g') ∧
      u !! 0 = Some [0%float] ∧ length H = 1000) ∧
  (∃ innov hvar g',
      simulate_bekk (Random0 := tape_random float) example_params 4 "normal" 10 0%float example_tape
        = (Ok (innov, hvar), g') ∧
      innov !! 0 = Some [0%float] ∧ length hvar = 4).
Proof.
  split.
  - destruct (simulate_BEKK (Random0 := tape_random float) 1000 [0.5; 0.5; 1]%float 1
                (replicate 1000 [1%float])) as [[[u H]|x|] g'] eqn:Hrun.
    + exists u, H, g'. split; [reflexivity|].
      destruct (proj1 (simulation_recursion (Random0 := tape_random float)) _ _ _ _ _ _ _ Hrun)
        as (A & B & C & e & _ & _ & _ & HlH & Hu0 & _).
      split; [exact Hu0 | exact HlH].
    + vm_compute in Hrun. discriminate.
    + vm_compute in Hrun. discriminate.
  - destruct (simulate_bekk (Random0 := tape_random float) example_params 4 "normal" 10 0%float example_tape)
      as [[[innov hvar]|x|] g'] eqn:Hrun.
    + exists innov, hvar, g'. split; [reflexivity|].
      destruct (proj2 (simulation_recursion (Random0 := tape_random float)) _ _ _ _ _ _ _ _ _ Hrun)
        as (error & _ & _ & Hlh & Hi0 & _).
      split; [exact Hi0 | exact Hlh].
    + vm_compute in Hrun. discriminate.
    + vm_compute in Hrun. discriminate.
Defined.

Lemma shape_errors_witness :
  convert_theta_to_abc [1; 2]%R 1 = Raise ValueError ∧
  convert_theta_to_ab [1%R] 1 = Raise ValueError.
Proof.
  split.
  - apply (proj1 (shape_errors (F := R) (Random0 := tape_random R) [1; 2]%R 1));
      simpl; lia.
  - apply (proj2 (proj2 (shape_errors (F := R) (Random0 := tape_random R)
                           [1%R] 1))).
    simpl. lia.
Defined.

Lemma stationary_loop_floor_and_exit_witness :
  stationary_H 999 [[0.5]]%float [[0.5]]%float [[1]]%float = OutOfFuel ∧
  ∃ fuel H, stationary_H fuel [[0.5]]%float [[0.5]]%float [[1]]%float = Ok H.
Proof.
  destruct (stationary_loop_floor_and_exit (F := float)
              [[0.5]]%float [[0.5]]%float [[1]]%float)
    as (Hfloor & _ & Hiff).
  split; [apply Hfloor; lia|].
  apply Hiff. exists 1000. split; [lia|]. vm_compute. reflexivity.
Defined.

Lemma zero_parameters_constant_path_witness :
  ∃ H f,
    likelihood_body (Lapack0 := float_lapack) (Libm0 := {| np_log := λ x, x |})
                    [0; 0]%float [[1]; [2]; [3]]%float = Ok (H, f) ∧
    H !! 2 = Some (mdiv (dot (transpose [[1]; [2]; [3]]%float)
                             [[1]; [2]; [3]]%float) (of_nat 3)).
Proof.
  destruct (zero_parameters_constant_path
              (Lapack0 := float_lapack) (Libm0 := {| np_log := λ x, x |})
              [0; 0]%float [[1]; [2]; [3]]%float 3 1
              float_inv_succeeds_off_singular)
    as (H & f & Hrun & _ & Hconst).
  - split; [reflexivity | repeat constructor].
  - lia.
  - reflexivity.
  - vm_compute. reflexivity.
  - vm_compute. reflexivity.
  - exists H, f. split; [exact Hrun|]. apply Hconst. lia.
Defined.


Lemma unknown_distribution_raises_witness :
  simulate_bekk (Random0 := tape_random float) example_params 4 "gauss" 10 0%float example_tape
    = (Raise ValueError, example_tape).
Proof.
  apply (unknown_distribution_raises (Random0 := tape_random float)); discriminate.
Defined.

(** * Further properties of the sources *)

(** ** The codec: layout, inverse direction, shapes *)

Section codec_layout.
Context {F : Type} `{!Scalar F}.
Implicit Types (M A B C : list (list F)) (l theta vals : list F).

Lemma join_chunks r c l : length l = r * c → mjoin (chunks r c l) = l.
Proof.
  revert l. induction r as [|r IH]; intros l Hl; simpl.
  - by destruct l.
  - rewrite IH by (rewrite length_drop; lia). apply take_drop.
Qed.

Lemma lookup_total_take_lt l k i : i < k → take k l !!! i = l !!! i.
Proof. intros Hi. by rewrite lookup_total_take, decide_True. Qed.

Lemma chunks_entry r c l i j :
  length l = r * c → i < r → j < c →
  (chunks r c l !!! i) !!! j = l !!! (i * c + j).
Proof.
  revert l i. induction r as [|r IH]; intros l i Hl Hi Hj; [lia|].
  cbn [chunks]. destruct i as [|i].
  - change ((take c l :: chunks r c (drop c l)) !!! 0) with (take c l).
    by rewrite lookup_total_take_lt.
  - change ((take c l :: chunks r c (drop c l)) !!! S i)
      with (chunks r c (drop c l) !!! i).
    rewrite IH by (rewrite ?length_drop; lia).
    rewrite lookup_total_drop. f_equal. lia.
Qed.

Lemma tril_in_range n i j : (i, j) ∈ tril_indices n → i < n ∧ j < n.
Proof. intros [??]%elem_of_tril_indices. lia. Qed.

Lemma NoDup_tril_indices n : NoDup (tril_indices n).
Proof.
  induction n as [|n IH]; [constructor|].
  rewrite tril_indices_S. apply NoDup_app. split; [done|]. split.
  - intros [i j] Hin%elem_of_tril_indices Hin2.
    apply list_elem_of_fmap in Hin2 as (j' & [= -> ->] & _). lia.
  - apply NoDup_fmap; [intros j j' [= ->]; done | apply NoDup_seq].
Qed.

(** Row [i] of the lower triangle starts at position [i (i+1) / 2]. *)
Lemma tril_indices_lookup n i j :
  j ≤ i → i < n →
  tril_indices n !! (length (tril_indices i) + j) = Some (i, j).
Proof.
  intros Hji. induction n as [|n IH]; intros Hin; [lia|].
  rewrite tril_indices_S. destruct (decide (i = n)) as [->|Hne].
  - rewrite lookup_app_r by lia.
    replace (length (tril_indices n) + j - length (tril_indices n)) with j by lia.
    rewrite list_lookup_fmap, lookup_seq_lt by lia. done.
  - rewrite lookup_app_l; [apply IH; lia|].
    apply lookup_lt_Some with (i, j). apply IH. lia.
Qed.

(** Scattering values over distinct index pairs: each pair receives its
    own value, every other entry is left alone. *)
Lemma scatter_lookup r c idx vals M :
  wf_mat r c M → (∀ i j, (i, j) ∈ idx → i < r ∧ j < c) →
  NoDup idx → length vals = length idx →
  let M' := fold_left (λ M' '((i, j), v), setitem2 M' i j v) (zip idx vals) M in
  wf_mat r c M' ∧
  (∀ k i j v, idx !! k = Some (i, j) → vals !! k = Some v →
              (M' !!! i) !!! j = v) ∧
  (∀ i j, (i, j) ∉ idx → (M' !!! i) !!! j = (M !!! i) !!! j).
Proof.
  revert vals M.
  induction idx as [|[i0 j0] idx IH]; intros vals M HM Hidx Hnd Hlen.
  - destruct vals; [|done]. simpl. split; [done|]. split; [|done].
    intros k i j v Hk. done.
  - destruct vals as [|v0 vals]; [done|]. simpl.
    apply NoDup_cons in Hnd as [Hnin Hnd].
    destruct (Hidx i0 j0) as [Hi0 Hj0]; [by left|].
    destruct (IH vals (setitem2 M i0 j0 v0)) as (Hwf & Hin & Hout).
    { by apply wf_setitem2. }
    { intros i j Hij. apply Hidx. by right. }
    { done. }
    { simpl in Hlen. lia. }
    split; [done|]. split.
    + intros [|k] i j v Hk Hv; simpl in Hk, Hv.
      * injection Hk as <- <-. injection Hv as <-.
        rewrite (Hout i0 j0 Hnin), (setitem2_entry r c) by done.
        by rewrite decide_True.
      * by apply (Hin k).
    + intros i j Hnot. apply not_elem_of_cons in Hnot as [Hne Hnot].
      rewrite (Hout i j Hnot), (setitem2_entry r c) by done.
      by rewrite decide_False.
Qed.

Lemma broadcast_to_length vals k vals' :
  broadcast_to vals k = Ok vals' → length vals' = k.
Proof.
  unfold broadcast_to. destruct (length vals =? k) eqn:E.
  - apply Nat.eqb_eq in E. by intros [= <-].
  - destruct vals as [|v [|w vals]]; [done| |done].
    intros [= <-]. apply length_replicate.
Qed.

(** What a successful [convert_theta_to_abc] has computed. *)
Lemma convert_theta_to_abc_inv theta n A B C :
  convert_theta_to_abc theta n = Ok (A, B, C) →
  wf_mat n n A ∧ wf_mat n n B ∧
  ∃ vals, length vals = length (tril_indices n) ∧
    C = fold_left (λ M' '((i, j), v), setitem2 M' i j v)
                  (zip (tril_indices n) vals) (zeros n n).
Proof.
  intros Hdec. unfold convert_theta_to_abc in Hdec.
  apply bind_Ok_inv in Hdec as (A' & HA & Hdec).
  apply bind_Ok_inv in Hdec as (B' & HB & Hdec).
  apply bind_Ok_inv in Hdec as (C' & HC & Hdec).
  injection Hdec as -> -> ->.
  unfold reshape in HA, HB.
  destruct (length (slice theta 0 (n ^ 2)) =? n * n) eqn:EA; [|done].
  destruct (length (slice theta (n ^ 2) (2 * n ^ 2)) =? n * n) eqn:EB; [|done].
  apply Nat.eqb_eq in EA, EB. injection HA as <-. injection HB as <-.
  split; [by apply wf_chunks|]. split; [by apply wf_chunks|].
  unfold setitem_fancy in HC.
  apply bind_Ok_inv in HC as (vals' & Hb%broadcast_to_length & HC).
  injection HC as <-. by exists vals'.
Qed.

Lemma convert_theta_to_abc_wf theta n A B C :
  convert_theta_to_abc theta n = Ok (A, B, C) →
  wf_mat n n A ∧ wf_mat n n B ∧ wf_mat n n C.
Proof.
  intros (HA & HB & vals & Hlen & ->)%convert_theta_to_abc_inv.
  split; [done|]. split; [done|].
  by destruct (scatter_lookup n n (tril_indices n) vals (zeros n n))
    as (Hwf & _ & _);
    [apply wf_zeros | apply tril_in_range | apply NoDup_tril_indices | |].
Qed.

(** [convert_theta_to_ab] reads the first [2 n²] entries only. *)
Lemma convert_theta_to_ab_prefix theta n :
  convert_theta_to_ab (slice theta 0 (2 * n ^ 2)) n = convert_theta_to_ab theta n.
Proof.
  unfold convert_theta_to_ab, slice. rewrite !Nat.sub_0_r, !drop_0.
  replace (2 * n ^ 2 - n ^ 2) with (n ^ 2) by lia.
  replace (2 * n ^ 2) with (n ^ 2 + n ^ 2) by lia.
  rewrite take_take, <- take_drop_commute, take_take.
  replace (n ^ 2 `min` (n ^ 2 + n ^ 2)) with (n ^ 2) by lia.
  by rewrite Nat.min_id.
Qed.
End codec_layout.

Lemma for_each_ext {S} (l : list nat) (f g : nat → S → res S) (s : S) :
  (∀ t s, t ∈ l → f t s = g t s) → for_each l f s = for_each l g s.
Proof.
  revert s. induction l as [|t l IH]; intros s Hfg; simpl; [done|].
  rewrite (Hfg t s) by (by left).
  destruct (g t s) as [s'| |]; simpl; [|done..].
  apply IH. intros t' s'' Hin. apply Hfg. by right.
Qed.

(** ** The two simulators, step by step *)

Section simulation_steps.
Context {F : Type} `{!Scalar F, !Lapack F}.
Implicit Types (M N A B C : list (list F)).

(** From pass 1 on, a pass of the loop of [simulate_bekk] and a pass of
    the loop of [simulate_BEKK] do the same to the same state, failures
    included. *)
Lemma simulate_steps_agree (param : BEKKParams F) e t
    (st : list (list F) * list (list (list F))) :
  1 ≤ t →
  simulate_bekk_step param (dot (c_mat param) (transpose (c_mat param))) e t st
  = simulate_step (a_mat param) (b_mat param) (c_mat param) e t st.
Proof.
  intros Ht. destruct st as [u H].
  unfold simulate_bekk_step, simulate_step, iadd, getitem, setitem.
  destruct (t <? length H) eqn:HtH.
  - apply Nat.ltb_lt in HtH as HtH'.
    destruct (lookup_lt_is_Some_2 H (t - 1)) as [h1 Hh1]; [lia|].
    rewrite Hh1. destruct (u !! (t - 1)) as [r|]; [|done].
    cbn [mbind res_mbind res_bind].
    repeat (first [ rewrite list_lookup_insert_eq by (rewrite ?length_insert; lia)
                  | rewrite list_lookup_insert_ne by lia
                  | rewrite length_insert | rewrite HtH | rewrite Hh1
                  | rewrite list_insert_insert_eq ];
            cbn [mbind res_mbind res_bind]).
    reflexivity.
  - destruct (u !! (t - 1)) as [r|]; [|done].
    by destruct (H !! (t - 1)) as [h1|].
Qed.

Lemma length_dot M N : length (dot M N) = length M.
Proof. unfold dot. apply length_fmap. Qed.

Lemma length_simulation_update n A B C (v : list F) Hprev :
  length A = n → length B = n → length C = n →
  length (simulation_update A B C v Hprev) = n.
Proof.
  intros HA HB HC. unfold simulation_update, madd.
  rewrite !length_zip_with, !length_dot. lia.
Qed.

(** [L.dot(np.atleast_2d(e[t]).T).flatten()] has one entry per row of
    [L]. *)
Lemma length_innovation n (L : list (list F)) (et : list F) :
  length L = n → length et = n →
  length (mjoin (dot L (transpose [et]))) = n.
Proof.
  intros HL Het. destruct (decide (n = 0)) as [Hn|Hn].
  { rewrite Hn in HL. by destruct L. }
  assert (Hwf : wf_mat 1 n [et]) by (split; [done | by repeat constructor]).
  pose proof (wf_transpose 1 n [et] Hwf (or_introl (le_n 1))) as Ht.
  rewrite (length_join_wf n 1); [lia|].
  apply wf_dot; [done|]. apply (ncols_wf' n 1); [done | left; lia].
Qed.

(** Every simulated row has [n] entries. *)
Lemma simulated_rows T n A B C e (u : list (list F)) H :
  length A = n → length B = n → length C = n →
  cholesky_keeps_size F → wf_mat T n e →
  length u = T → u !! 0 = Some (zeros1 n) →
  (∀ t, 1 ≤ t < T → simulated_at A B C e u H t) →
  wf_mat T n u.
Proof.
  intros HA HB HC Hchol He Hlen Hu0 Hrec. split; [done|].
  apply Forall_lookup. intros t row Hrow.
  destruct t as [|t].
  { rewrite Hu0 in Hrow. injection Hrow as <-. apply length_replicate. }
  assert (Ht : S t < T) by (rewrite <- Hlen; by eapply lookup_lt_Some).
  destruct (Hrec (S t)) as (ut1 & Ht1 & L & et & _ & _ & _ & HL & Het & Hut);
    [lia|].
  rewrite Hut in Hrow. injection Hrow as <-.
  apply length_innovation.
  - rewrite (Hchol _ _ HL). by apply length_simulation_update.
  - by apply (wf_row_lookup _ _ _ _ _ He Het).
Qed.
End simulation_steps.

(** ** The library contracts on the reference instances *)

Lemma chol_rows_length {F : Type} `{!Scalar F} n rows i (L L' : list (list F)) :
  chol_rows n rows i L = Ok L' → length L' = length L + length rows.
Proof.
  revert i L. induction rows as [|Ai rows IH]; intros i L; cbn [chol_rows].
  - intros [= <-]. simpl. lia.
  - destruct (chol_row Ai L i (seq 0 (S i)) []) as [row| |]; [|done..].
    cbn [mbind res_mbind res_bind]. intros Hrun%IH.
    rewrite length_app in Hrun. simpl in *. lia.
Qed.

Lemma reference_cholesky_keeps_size {F : Type} `{!Scalar F} :
  cholesky_keeps_size F (Lapack0 := reference_lapack).
Proof.
  intros M L HL. cbn [linalg_cholesky reference_lapack] in HL.
  unfold cholesky_lower in HL. by apply chol_rows_length in HL.
Qed.

(** ** The properties *)

Section codec_properties.
Context {F : Type} `{!Scalar F, !Lapack F, !Libm F}.
Implicit Types (A B C : list (list F)) (theta : list F).

(** X1. Layout of the parameter vector: for [theta] of the full length
    [2 n² + n (n+1) / 2], [convert_theta_to_abc] puts entry [i n + j] at
    [A[i][j]], entry [n² + i n + j] at [B[i][j]] and, for [j ≤ i], entry
    [2 n² + i (i+1) / 2 + j] at [C[i][j]]; [C] is zero above the
    diagonal. *)
Theorem decode_layout theta n :
  length theta = 2 * n ^ 2 + n * (n + 1) / 2 →
  ∃ A B C, convert_theta_to_abc theta n = Ok (A, B, C) ∧
    ∀ i j, i < n → j < n →
      (A !!! i) !!! j = theta !!! (i * n + j) ∧
      (B !!! i) !!! j = theta !!! (n ^ 2 + i * n + j) ∧
      (C !!! i) !!! j =
        if decide (j ≤ i) then theta !!! (2 * n ^ 2 + i * (i + 1) / 2 + j)
        else fzero.
Proof.
  intros Hlen. pose proof (Nat.pow_2_r n) as Hsq.
  pose proof (length_tril_indices_div n) as Hk.
  set (vals := drop (2 * n ^ 2) theta).
  assert (Hvals : length vals = length (tril_indices n)).
  { unfold vals. rewrite length_drop. lia. }
  destruct (scatter_lookup n n (tril_indices n) vals (zeros n n))
    as (Hwf & Hin & Hout);
    [apply wf_zeros | apply tril_in_range | apply NoDup_tril_indices | done |].
  eexists _, _, _. split.
  - unfold convert_theta_to_abc.
    rewrite !reshape_Ok by (rewrite length_slice; lia). rewrite !bind_Ok.
    unfold setitem_fancy. fold vals. rewrite broadcast_to_same by done.
    rewrite !bind_Ok. reflexivity.
  - intros i j Hi Hj. split; [|split].
    + rewrite chunks_entry by (rewrite ?length_slice; lia).
      unfold slice. rewrite drop_0, lookup_total_take_lt by nia. done.
    + rewrite chunks_entry by (rewrite ?length_slice; lia).
      unfold slice. rewrite lookup_total_take_lt by nia.
      rewrite lookup_total_drop. f_equal. lia.
    + destruct (decide (j ≤ i)) as [Hji|Hji].
      * pose proof (tril_indices_lookup n i j Hji Hi) as Hidx.
        rewrite length_tril_indices_div in Hidx.
        assert (Hlt : i * (i + 1) / 2 + j < length vals).
        { rewrite Hvals. by eapply lookup_lt_Some. }
        rewrite (Hin _ i j (vals !!! (i * (i + 1) / 2 + j)) Hidx)
          by (by apply list_lookup_lookup_total_lt).
        unfold vals. rewrite lookup_total_drop. f_equal. lia.
      * rewrite Hout, zeros_entry; [done|]. rewrite elem_of_tril_indices. lia.
Qed.

(** X2. Decoding then encoding is the identity on vectors of the full
    length: [convert_abc_to_theta] applied to the three arrays that
    [convert_theta_to_abc(theta, n)] returns gives back [theta]. *)
Theorem decode_then_encode theta n :
  length theta = 2 * n ^ 2 + n * (n + 1) / 2 →
  ∃ A B C, convert_theta_to_abc theta n = Ok (A, B, C) ∧
           convert_abc_to_theta A B C = Ok theta.
Proof.
  intros Hlen. pose proof (Nat.pow_2_r n) as Hsq.
  pose proof (length_tril_indices_div n) as Hk.
  set (vals := drop (2 * n ^ 2) theta).
  assert (Hvals : length vals = length (tril_indices n)).
  { unfold vals. rewrite length_drop. lia. }
  destruct (scatter_lookup n n (tril_indices n) vals (zeros n n))
    as (Hwf & Hin & _);
    [apply wf_zeros | apply tril_in_range | apply NoDup_tril_indices | done |].
  eexists _, _, _. split.
  - unfold convert_theta_to_abc.
    rewrite !reshape_Ok by (rewrite length_slice; lia). rewrite !bind_Ok.
    unfold setitem_fancy. fold vals. rewrite broadcast_to_same by done.
    rewrite !bind_Ok. reflexivity.
  - unfold convert_abc_to_theta, nrows. rewrite (proj1 Hwf).
    rewrite (getitem_fancy_Ok n n) by (done || apply tril_in_range).
    rewrite bind_Ok. f_equal.
    rewrite !join_chunks by (rewrite length_slice; lia).
    match goal with |- _ ++ _ ++ ?t = _ => assert (Ht : t = vals) end.
    { apply list_eq. intros k. rewrite list_lookup_fmap.
      destruct (tril_indices n !! k) as [[i j]|] eqn:Hidx; simpl.
      - destruct (lookup_lt_is_Some_2 vals k) as [v Hv].
        { rewrite Hvals. by eapply lookup_lt_Some. }
        rewrite Hv. f_equal. by apply (Hin k).
      - symmetry. apply lookup_ge_None. rewrite Hvals.
        by apply lookup_ge_None. }
    rewrite Ht. unfold slice, vals.
    rewrite Nat.sub_0_r, drop_0.
    replace (2 * n ^ 2 - n ^ 2) with (n ^ 2) by lia.
    replace (2 * n ^ 2) with (n ^ 2 + n ^ 2) by lia.
    rewrite <- drop_drop, !take_drop. done.
Qed.

(** X3. Whatever [convert_theta_to_abc] returns has the declared shapes:
    [A], [B] and [C] are n×n, and [C] is lower triangular (nothing is
    ever written above the diagonal), also when the tail of [theta] was
    broadcast. *)
Theorem decoded_shapes theta n A B C :
  convert_theta_to_abc theta n = Ok (A, B, C) →
  wf_mat n n A ∧ wf_mat n n B ∧ wf_mat n n C ∧ lower_triangular C.
Proof.
  intros (HA & HB & vals & Hlen & ->)%convert_theta_to_abc_inv.
  destruct (scatter_lookup n n (tril_indices n) vals (zeros n n))
    as (Hwf & _ & Hout);
    [apply wf_zeros | apply tril_in_range | apply NoDup_tril_indices | done |].
  repeat (split; [done|]). intros i j Hij.
  rewrite Hout, zeros_entry; [done|]. rewrite elem_of_tril_indices. lia.
Qed.

(** X4. A vector of length [2 n² + 1] is accepted by
    [convert_theta_to_abc]: its last entry is written to every entry of
    the lower triangle of [C]. *)
Theorem decode_full_broadcast theta n :
  length theta = 2 * n ^ 2 + 1 →
  ∃ A B C v, last theta = Some v ∧
    convert_theta_to_abc theta n = Ok (A, B, C) ∧
    ∀ i j, (C !!! i) !!! j = if decide (j ≤ i ∧ i < n) then v else fzero.
Proof.
  intros Hlen. pose proof (Nat.pow_2_r n) as Hsq.
  assert (Hd : length (drop (2 * n ^ 2) theta) = 1)
    by (rewrite length_drop; lia).
  destruct (drop (2 * n ^ 2) theta) as [|v [|w rest]] eqn:Hdrop; try done.
  destruct (scatter_entry n n (λ _, v) (tril_indices n) (zeros n n))
    as [Hwf Hent]; [apply wf_zeros | apply tril_in_range |].
  eexists _, _, _, v. split; [|split].
  - rewrite <- (take_drop (2 * n ^ 2) theta), Hdrop. apply last_snoc.
  - unfold convert_theta_to_abc.
    rewrite !reshape_Ok by (rewrite length_slice; lia). rewrite !bind_Ok.
    unfold setitem_fancy. rewrite Hdrop, broadcast_to_one, !bind_Ok.
    reflexivity.
  - intros i j. rewrite <- (const_fmap (λ _, v) (tril_indices n) v) by done.
    rewrite Hent, zeros_entry.
    destruct (decide ((i, j) ∈ tril_indices n)) as [Hin|Hnin];
      rewrite elem_of_tril_indices in *.
    + by rewrite decide_True.
    + by rewrite decide_False.
Qed.

(** X5. The reduced decoder inverts the encoder on its first two blocks:
    for n×n arrays [A], [B], [C] (any [C]), [convert_theta_to_ab]
    applied to [convert_abc_to_theta(A, B, C)], or to its first [2 n²]
    entries, returns [(A, B)]. *)
Theorem reduced_round_trip n A B C :
  wf_mat n n A → wf_mat n n B → wf_mat n n C →
  ∃ theta, convert_abc_to_theta A B C = Ok theta ∧
           convert_theta_to_ab theta n = Ok (A, B) ∧
           convert_theta_to_ab (slice theta 0 (2 * n ^ 2)) n = Ok (A, B).
Proof using Scalar0.
  intros HA HB HC. pose proof (Nat.pow_2_r n) as Hsq.
  pose proof (length_join_wf _ _ _ HA) as HlA.
  pose proof (length_join_wf _ _ _ HB) as HlB.
  eexists. split.
  { unfold convert_abc_to_theta, nrows. rewrite (proj1 HC).
    rewrite (getitem_fancy_Ok n n) by (done || apply tril_in_range).
    reflexivity. }
  rewrite convert_theta_to_ab_prefix.
  enough (convert_theta_to_ab
            (mjoin A ++ mjoin B ++
             ((λ '(i, j), (C !!! i) !!! j) <$> tril_indices n)) n
          = Ok (A, B)) by done.
  rewrite convert_theta_to_ab_Ok by (rewrite !length_app; lia).
  unfold slice. rewrite Nat.sub_0_r, drop_0, Hsq.
  replace (2 * (n * n) - n * n) with (n * n) by lia.
  rewrite (take_app_length' (mjoin A)) by done.
  rewrite (drop_app_length' (mjoin A) _ (n * n)) by done.
  rewrite (take_app_length' (mjoin B)) by done.
  by rewrite (chunks_join n n A), (chunks_join n n B).
Qed.

(** X6. [likelihood] reads only the first [2 n²] entries of [theta],
    [n] being the number of columns of [u]: it returns the same on
    [theta] and on [theta[:2*n**2]], exceptions included. *)
Theorem likelihood_reads_reduced_prefix theta (u : list (list F)) :
  convert_theta_to_ab (slice theta 0 (2 * ncols u ^ 2)) (ncols u)
    = convert_theta_to_ab theta (ncols u) ∧
  likelihood (slice theta 0 (2 * ncols u ^ 2)) u = likelihood theta u.
Proof.
  split; [apply convert_theta_to_ab_prefix|].
  unfold likelihood, likelihood_body.
  by rewrite convert_theta_to_ab_prefix.
Qed.
End codec_properties.

Section stationary_properties.
Context {F : Type} `{!Scalar F}.

(** X9. For n×n arrays [A], [B], [C], [stationary_H] raises nothing:
    the shapes agree in every product and sum, and the loop body runs
    at least once (the first test sees [i = 0 < 1000]), so [Hnew] is
    bound at [return Hnew]. Either the loop is still running when the
    fuel is spent, or an n×n matrix is returned. *)
Theorem stationary_H_never_raises n fuel (A B C : list (list F)) :
  wf_mat n n A → wf_mat n n B → wf_mat n n C →
  stationary_H fuel A B C = OutOfFuel ∨
  ∃ H, stationary_H fuel A B C = Ok H ∧ wf_mat n n H.
Proof.
  intros HA HB HC. unfold stationary_H.
  pose proof (stationary_run_never_raises fuel A B C) as Hne.
  destruct (stationary_run fuel A B C) as [[[i nrm] H]|e|] eqn:Hrun.
  - right. exists H. split; [done|].
    apply stationary_run_inv in Hrun as (_ & _ & -> & _).
    by apply wf_stationary_iterate.
  - by destruct (Hne e).
  - by left.
Qed.

(** X10. What [stationary_H] returns is the iterate reached after [i]
    passes of [H ← CC' + A H A' + B H B'] from the identity, where [i]
    is the first pass count from 1000 on at which the test
    [norm > 1e-3] fails for the change made by the last pass; at every
    earlier count from 1000 on the test held. *)
Theorem stationary_H_first_settled_iterate fuel (A B C H : list (list F)) :
  stationary_H fuel A B C = Ok H →
  ∃ i, 1000 ≤ i ≤ fuel ∧ H = stationary_iterate A B C i ∧
       fltb lit_1em3
            (norm (msub (stationary_iterate A B C i)
                        (stationary_iterate A B C (i - 1)))) = false ∧
       ∀ k, 1000 ≤ k < i →
            fltb lit_1em3
                 (norm (msub (stationary_iterate A B C k)
                             (stationary_iterate A B C (k - 1)))) = true.
Proof.
  intros (i & nrm & Hrun)%stationary_H_inv.
  apply stationary_run_inv in Hrun as (Hi & _ & -> & Htest & Hbefore).
  exists i. split; [done|]. split; [done|].
  assert (Hshift : ∀ k, 1 ≤ k →
            norm (msub (stationary_iterate A B C k)
                       (stationary_iterate A B C (k - 1)))
            = stationary_change A B C (k - 1)).
  { intros k Hk. unfold stationary_change. by replace (S (k - 1)) with k by lia. }
  split; [by rewrite Hshift by lia|].
  intros k Hk. rewrite Hshift by lia. by apply Hbefore.
Qed.
End stationary_properties.

Section stationary_double_properties.

(** X11. On doubles, with [A = B = 0] (n×n) and an n×n [C] such that
    every entry of [CC'] is finite and is not the negative zero,
    [stationary_H] returns the intercept [CC'], after the 1000 passes
    the loop always makes. *)
Theorem stationary_H_zero_dynamics n (C : list (list float)) fuel :
  wf_mat n n C → 1000 ≤ fuel →
  all_entries float_regular (dot C (transpose C)) = true →
  stationary_H fuel (zeros n n) (zeros n n) C = Ok (dot C (transpose C)).
Proof.
  intros HC Hfuel Hreg.
  pose proof (λ k, float_stationary_iterate_zero n C k HC Hreg) as Hit.
  destruct (stationary_run_stops (zeros n n) (zeros n n) C fuel Hfuel)
    as (i & Hrun).
  { replace (fuel - 1) with (S (fuel - 2)) by lia.
    unfold stationary_change. rewrite !Hit.
    rewrite (float_msub_diag n n), float_norm_zeros;
      [done | by apply wf_gram | by apply all_entries_regular_finite]. }
  unfold stationary_H. rewrite Hrun. cbn [mbind res_mbind res_bind].
  apply stationary_run_exit in Hrun as (Hi & _).
  destruct i as [|i]; [lia|]. by rewrite Hit.
Qed.
End stationary_double_properties.

Section simulation_properties.
Context {F : Type} `{!Scalar F, !Lapack F, !Libm F, !Random F}.

(** X18. The loop of [simulate_bekk] (generate_data.py) and the loop of
    [simulate_BEKK] (BEKK.py) are the same computation: started from the
    same [H[0]] (the unconditional variance being the result of
    [stationary_H]) and fed the same innovations, they return the same
    arrays [(u, H)], or raise the same exception. *)
Theorem simulators_agree (param : BEKKParams F) T n fuel error :
  unconditional_var param
    = stationary_H fuel (a_mat param) (b_mat param) (c_mat param) →
  simulate_bekk_path param T n error
  = simulate_path T n fuel (a_mat param) (b_mat param) (c_mat param)
                  (standardize error).
Proof.
  intros Hvar. unfold simulate_bekk_path, simulate_path. rewrite Hvar.
  destruct (stationary_H fuel _ _ _) as [H0| |]; [|done..]. rewrite !bind_Ok.
  destruct (setitem (np_empty T n n) 0 H0) as [H| |]; [|done..].
  rewrite !bind_Ok. apply for_each_ext.
  intros t st Hin%elem_of_seq. apply simulate_steps_agree. lia.
Qed.

(** X19. Short series in [simulate_bekk] with normal innovations, for
    a [param] over [n ≥ 1] assets whose [unconditional_var()] returns an
    n×n [h0]: with [nobs = 0] the store [hvar[0] = ...] raises
    [IndexError]; with [nobs = 1] the loop body never runs and the
    result is the single zero innovation and [hvar = [h0]]. *)
Theorem simulate_bekk_short_series (param : BEKKParams F) n degf lam g h0 :
  nrows (a_mat param) = n → 1 ≤ n → wf_mat n n h0 →
  unconditional_var param = Ok h0 →
  (simulate_bekk param 0 "normal" degf lam g).1 = Raise IndexError ∧
  (simulate_bekk param 1 "normal" degf lam g).1 = Ok ([zeros1 n], [h0]).
Proof.
  intros Hn _ _ Hvar. unfold simulate_bekk, draw_error. rewrite Hn.
  cbn [String.eqb Ascii.eqb Bool.eqb].
  split.
  - destruct (multivariate_normal n 0 g) as [error g']. cbn [fst].
    unfold simulate_bekk_path. by rewrite Hvar.
  - destruct (multivariate_normal n 1 g) as [error g']. cbn [fst].
    unfold simulate_bekk_path. by rewrite Hvar.
Qed.

(** X20. What [simulate_BEKK] returns can be handed to [likelihood], as
    the script's [test] does: [u] has shape (1000, n), and
    [likelihood(theta[:2*n**2], u)] and [likelihood(theta, u)] return
    the same number without raising. The libraries are assumed to keep
    their contracts: the draw has shape (1000, n), the Cholesky factor
    has as many rows as its argument, the inverse exists off singular
    matrices. *)
Theorem simulated_series_has_likelihood fuel (theta : list F) n g u H g' :
  inv_succeeds_off_singular F → cholesky_keeps_size F →
  wf_mat 1000 n (multivariate_normal n 1000 g).1 →
  simulate_BEKK fuel theta n g = (Ok (u, H), g') →
  wf_mat 1000 n u ∧
  ∃ v, likelihood (slice theta 0 (2 * n ^ 2)) u = Ok v ∧
       likelihood theta u = Ok v.
Proof.
  intros Hinv Hchol Hdraw Hrun. unfold simulate_BEKK in Hrun.
  destruct (convert_theta_to_abc theta n) as [[[A B] C]| |] eqn:Habc;
    [|discriminate..].
  destruct (multivariate_normal n 1000 g) as [e g''] eqn:He.
  injection Hrun as Hrun <-. cbn [fst] in Hdraw.
  destruct (convert_theta_to_abc_wf theta n A B C Habc)
    as ([HA _] & [HB _] & [HC _]).
  apply simulate_path_inv in Hrun as (Hlu & _ & Hu0 & _ & Hrec); [|lia].
  assert (Hu : wf_mat 1000 n u)
    by (by apply (simulated_rows 1000 n A B C e u H)).
  split; [done|].
  assert (Hlen : 2 * n ^ 2 ≤ length theta).
  { destruct (decide (length theta < 2 * n ^ 2)) as [Hlt|]; [|lia].
    by rewrite convert_theta_to_abc_short in Habc. }
  destruct (likelihood_body_Ok theta u 1000 n _ _ Hinv Hu ltac:(lia)
              (convert_theta_to_ab_Ok theta n Hlen))
    as (Hb & c0 & cs & Hbody & _).
  assert (Hfull : likelihood theta u
                  = Ok (if fisinf (fold_left fadd cs c0) then lit_1e10
                        else fold_left fadd cs c0)).
  { unfold likelihood. by rewrite Hbody. }
  eexists. split; [|exact Hfull].
  rewrite <- Hfull. unfold likelihood, likelihood_body.
  rewrite (ncols_wf 1000 n u Hu) by lia.
  by rewrite convert_theta_to_ab_prefix.
Qed.
End simulation_properties.

(** ** The properties at concrete inputs *)

Lemma decode_layout_witness :
  ∃ A B C,
    convert_theta_to_abc [1; 2; 3; 4; 5; 6; 7; 8; 9; 10; 11]%float 2
      = Ok (A, B, C) ∧
    ∀ i j, i < 2 → j < 2 →
      (A !!! i) !!! j
        = [1; 2; 3; 4; 5; 6; 7; 8; 9; 10; 11]%float !!! (i * 2 + j) ∧
      (B !!! i) !!! j
        = [1; 2; 3; 4; 5; 6; 7; 8; 9; 10; 11]%float !!! (2 ^ 2 + i * 2 + j) ∧
      (C !!! i) !!! j =
        if decide (j ≤ i)
        then [1; 2; 3; 4; 5; 6; 7; 8; 9; 10; 11]%float
               !!! (2 * 2 ^ 2 + i * (i + 1) / 2 + j)
        else fzero.
Proof. apply (decode_layout (F := float)). reflexivity. Defined.

Lemma decode_then_encode_witness :
  ∃ A B C,
    convert_theta_to_abc [1; 2; 3; 4; 5; 6; 7; 8; 9; 10; 11]%float 2
      = Ok (A, B, C) ∧
    convert_abc_to_theta A B C
      = Ok [1; 2; 3; 4; 5; 6; 7; 8; 9; 10; 11]%float.
Proof. apply (decode_then_encode (F := float)). reflexivity. Defined.

Lemma decoded_shapes_witness :
  wf_mat 2 2 [[1; 2]; [3; 4]]%float ∧ wf_mat 2 2 [[5; 6]; [7; 8]]%float ∧
  wf_mat 2 2 [[9; 0]; [9; 9]]%float ∧ lower_triangular [[9; 0]; [9; 9]]%float.
Proof.
  apply (decoded_shapes (F := float) [1; 2; 3; 4; 5; 6; 7; 8; 9]%float 2).
  vm_compute. reflexivity.
Defined.

Lemma decode_full_broadcast_witness :
  ∃ A B C v,
    last [1; 2; 3; 4; 5; 6; 7; 8; 9]%float = Some v ∧
    convert_theta_to_abc [1; 2; 3; 4; 5; 6; 7; 8; 9]%float 2 = Ok (A, B, C) ∧
    ∀ i j, (C !!! i) !!! j = if decide (j ≤ i ∧ i < 2) then v else fzero.
Proof. apply (decode_full_broadcast (F := float)). reflexivity. Defined.

Lemma reduced_round_trip_witness :
  ∃ theta,
    convert_abc_to_theta [[1; 2]; [3; 4]]%float [[5; 6]; [7; 8]]%float
                         [[9; 0]; [10; 11]]%float = Ok theta ∧
    convert_theta_to_ab theta 2
      = Ok ([[1; 2]; [3; 4]]%float, [[5; 6]; [7; 8]]%float) ∧
    convert_theta_to_ab (slice theta 0 (2 * 2 ^ 2)) 2
      = Ok ([[1; 2]; [3; 4]]%float, [[5; 6]; [7; 8]]%float).
Proof.
  apply (reduced_round_trip (F := float));
    (split; [reflexivity | repeat constructor]).
Defined.

Lemma stationary_H_never_raises_witness :
  ∃ H, stationary_H 1000 [[0.5]]%float [[0.5]]%float [[1]]%float = Ok H ∧
       wf_mat 1 1 H.
Proof.
  destruct (stationary_H_never_raises (F := float) 1 1000
              [[0.5]]%float [[0.5]]%float [[1]]%float)
    as [Hout | HH]; try (split; [reflexivity | repeat constructor]).
  - vm_compute in Hout. discriminate.
  - exact HH.
Defined.

Lemma stationary_H_first_settled_iterate_witness :
  ∃ H i,
    stationary_H 1000 [[0.5]]%float [[0.5]]%float [[1]]%float = Ok H ∧
    1000 ≤ i ≤ 1000 ∧
    H = stationary_iterate [[0.5]]%float [[0.5]]%float [[1]]%float i.
Proof.
  destruct (stationary_H 1000 [[0.5]]%float [[0.5]]%float [[1]]%float)
    as [H|x|] eqn:Hrun.
  - destruct (stationary_H_first_settled_iterate _ _ _ _ _ Hrun)
      as (i & Hi & HH & _).
    exists H, i. split; [reflexivity|]. split; [exact Hi | exact HH].
  - vm_compute in Hrun. discriminate.
  - vm_compute in Hrun. discriminate.
Defined.

Lemma stationary_H_zero_dynamics_witness :
  stationary_H 1000 (zeros 2 2) (zeros 2 2) [[1; 0]; [0.5; 2]]%float
    = Ok (dot [[1; 0]; [0.5; 2]]%float (transpose [[1; 0]; [0.5; 2]]%float)).
Proof.
  apply (stationary_H_zero_dynamics 2 [[1; 0]; [0.5; 2]]%float 1000).
  - split; [reflexivity | repeat constructor].
  - lia.
  - vm_compute. reflexivity.
Defined.

Lemma simulators_agree_witness :
  simulate_bekk_path
    {| a_mat := [[0.5]]%float; b_mat := [[0.5]]%float; c_mat := [[1]]%float;
       unconditional_var :=
         stationary_H 1000 [[0.5]]%float [[0.5]]%float [[1]]%float |}
    4 1 example_tape
  = simulate_path 4 1 1000 [[0.5]]%float [[0.5]]%float [[1]]%float
                  (standardize example_tape).
Proof.
  apply (simulators_agree (F := float)
           {| a_mat := [[0.5]]%float; b_mat := [[0.5]]%float;
              c_mat := [[1]]%float;
              unconditional_var :=
                stationary_H 1000 [[0.5]]%float [[0.5]]%float [[1]]%float |}).
  reflexivity.
Defined.

Lemma simulate_bekk_short_series_witness :
  (simulate_bekk (Random0 := tape_random float) example_params 0 "normal" 10
                 0%float example_tape).1 = Raise IndexError ∧
  (simulate_bekk (Random0 := tape_random float) example_params 1 "normal" 10
                 0%float example_tape).1
    = Ok ([zeros1 1], [[[2]]%float]).
Proof.
  apply (simulate_bekk_short_series (Random0 := tape_random float)
           example_params 1 10 0%float example_tape [[2]]%float).
  - reflexivity.
  - lia.
  - split; [reflexivity | repeat constructor].
  - reflexivity.
Defined.

Lemma simulated_series_has_likelihood_witness :
  ∃ u H g',
    simulate_BEKK (Random0 := tape_random float) 1000 [0.5; 0.5; 1]%float 1
                  (replicate 1000 [1%float]) = (Ok (u, H), g') ∧
    wf_mat 1000 1 u ∧
    ∃ v, likelihood (Libm0 := {| np_log := λ x, x |})
                    (slice [0.5; 0.5; 1]%float 0 (2 * 1 ^ 2)) u = Ok v ∧
         likelihood (Libm0 := {| np_log := λ x, x |})
                    [0.5; 0.5; 1]%float u = Ok v.
Proof.
  destruct (simulate_BEKK (Random0 := tape_random float) 1000
              [0.5; 0.5; 1]%float 1 (replicate 1000 [1%float]))
    as [[[u H]|x|] g'] eqn:Hrun.
  - exists u, H, g'. split; [reflexivity|].
    apply (simulated_series_has_likelihood
             (Libm0 := {| np_log := λ x, x |}) (Random0 := tape_random float)
             1000 [0.5; 0.5; 1]%float 1 (replicate 1000 [1%float]) u H g').
    + apply float_inv_succeeds_off_singular.
    + apply reference_cholesky_keeps_size.
    + change (wf_mat 1000 1 (take 1000 (replicate 1000 [1%float]))).
      rewrite take_replicate. split; [apply length_replicate|].
      apply Forall_replicate. reflexivity.
    + exact Hrun.
  - vm_compute in Hrun. discriminate.
  - vm_compute in Hrun. discriminate.
Defined.
